(** * youtube-proxy: a Rocq model of the gateway's handlers

    The repository ships three variants of one Express server:
    - the yt-dlp variant   (src/index.js, first module),
    - the play-dl variant  (src/index.js, second module),
    - the Innertube variant (src/unnamed/part_000).

    Pure code (format selection, search-result mapping, id validation) is
    embedded as Rocq functions.  Handlers are embedded in a small state and
    exception monad over an abstract [Host] that provides the external
    capabilities (ytsr, yt-dlp, play-dl, youtubei.js, fs, path); every call
    to the host is recorded in a call log.  The single [await] inside
    [initYT] is modelled a second time as a step relation, so that requests
    interleaving at that suspension point can be studied.  Module loading
    is modelled by the top-level binding structure of each module.

    Conventions: a JavaScript string is a [string] (one character per code
    unit); a JavaScript number carrying a bitrate is an integer [Z];
    [undefined]/[null] is [None]; [console.log] calls are left out. *)

From Stdlib Require Import String Ascii List ZArith Lia Bool Arith.
From Stdlib Require Import Permutation Sorted.
Import ListNotations.
Local Open Scope string_scope.

Set Implicit Arguments.

(* ===================================================================== *)
(** ** JavaScript primitives used by the source *)
(* ===================================================================== *)

Module JS.

(** Truthiness of an optional string: [undefined], [null] and [""] are
    falsy. *)
Definition truthy (o : option string) : bool :=
  match o with
  | Some (String _ _) => true
  | _ => false
  end.

(** [o || d] on strings. *)
Definition or_else (o : option string) (d : string) : string :=
  match o with
  | Some (String c s) => String c s
  | _ => d
  end.

(** [n || 0] on numbers: [undefined] and [0] both give [0]. *)
Definition or_zero (o : option Z) : Z :=
  match o with
  | Some n => n
  | None => 0%Z
  end.

(** [hay.startsWith(needle)]. *)
Definition startsWith (hay needle : string) : bool := String.prefix needle hay.

(** [hay.includes(needle)]. *)
Fixpoint includes (hay needle : string) : bool :=
  String.prefix needle hay ||
  match hay with
  | EmptyString => false
  | String _ rest => includes rest needle
  end.

(** [s.replace(pat, rep)] with a string pattern: only the first
    occurrence is replaced ([rep] holds no [$] pattern in the source). *)
Fixpoint replace (s pat rep : string) : string :=
  if String.prefix pat s
  then rep ++ String.substring (String.length pat) (String.length s - String.length pat) s
  else match s with
       | EmptyString => EmptyString
       | String c rest => String c (replace rest pat rep)
       end.

Definition is_space (c : ascii) : bool :=
  let n := nat_of_ascii c in
  ((9 <=? n)%nat && (n <=? 13)%nat) || (n =? 32)%nat || (n =? 160)%nat.

Fixpoint trim_start (s : string) : string :=
  match s with
  | String c rest => if is_space c then trim_start rest else s
  | EmptyString => EmptyString
  end.

Fixpoint trim_end (s : string) : string :=
  match s with
  | EmptyString => EmptyString
  | String c rest =>
      match trim_end rest with
      | EmptyString => if is_space c then EmptyString else String c EmptyString
      | r => String c r
      end
  end.

(** [s.trim()]. *)
Definition trim (s : string) : string := trim_end (trim_start s).

(** [arr.sort(cmp)].  ECMAScript requires the sort to be stable, and for
    a consistent comparator the stable sorted permutation is unique;
    it is computed here by insertion from the right. *)
Fixpoint insert {A} (cmp : A -> A -> Z) (x : A) (l : list A) : list A :=
  match l with
  | [] => [x]
  | y :: t => if (cmp x y <=? 0)%Z then x :: y :: t else y :: insert cmp x t
  end.

Definition sort {A} (cmp : A -> A -> Z) (l : list A) : list A :=
  fold_right (insert cmp) [] l.

(** [arr.find(p)]. *)
Definition find {A} (p : A -> bool) (l : list A) : option A := List.find p l.

End JS.

(* ===================================================================== *)
(** ** Format selection (play-dl and Innertube variants) *)
(* ===================================================================== *)

Section Selector.
Variable A : Type.
(** Field accessors: [f.mime_type] / [f.mimeType] and [f.bitrate]. *)
Variable mime : A -> option string.
Variable rate : A -> option Z.

(** [f => f.mime_type?.includes('audio')] *)
Definition is_audio (f : A) : bool :=
  match mime f with
  | Some m => JS.includes m "audio"
  | None => false
  end.

(** [(a, b) => (b.bitrate || 0) - (a.bitrate || 0)] *)
Definition by_bitrate_desc (a b : A) : Z :=
  (JS.or_zero (rate b) - JS.or_zero (rate a))%Z.

(** [formats.filter(...).sort(...)[0]] *)
Definition pick_audio (formats : list A) : option A :=
  hd_error (JS.sort by_bitrate_desc (filter is_audio formats)).
End Selector.

(** An array holds references: the same selection run on the array whose
    cells are paired with their positions tells which cell is returned. *)
Definition enumerate {A} (l : list A) : list (nat * A) :=
  combine (seq 0 (length l)) l.

Definition pick_audio_ref {A} (mime : A -> option string) (rate : A -> option Z)
    (formats : list A) : option (nat * A) :=
  pick_audio (fun c => mime (snd c)) (fun c => rate (snd c)) (enumerate formats).

(** [FirstBest audio r fs i x]: cell [i] of [fs] holds [x], [x] is an audio
    format, no audio format of [fs] has a larger bitrate, and no audio format
    with the same bitrate sits before position [i]. *)
Definition FirstBest {A} (audio : A -> bool) (r : A -> Z)
    (fs : list A) (i : nat) (x : A) : Prop :=
  nth_error fs i = Some x /\ audio x = true /\
  forall j y, nth_error fs j = Some y -> audio y = true ->
    (r y <= r x)%Z /\ (r y = r x -> i <= j).

(** [HasAudio m]: the MIME type is present and contains "audio". *)
Definition HasAudio (m : option string) : Prop :=
  exists s pre post, m = Some s /\ s = pre ++ "audio" ++ post.

(** [Counts o v]: a format whose [bitrate] field is [o] counts for [v] in
    the comparison: for its bitrate when it has one, for 0 when it is
    missing. *)
Definition Counts (o : option Z) (v : Z) : Prop :=
  o = Some v \/ (o = None /\ v = 0%Z).

(** The same as a function. *)
Definition bitrate_of (o : option Z) : Z :=
  match o with
  | Some b => b
  | None => 0%Z
  end.

(** What the format selector owes on the array [fs]: no result exactly when
    no format is an audio format; otherwise the result is the cell of [fs],
    at some position [i], that holds an audio format, such that no audio
    format of [fs] counts for more and none that counts for as much stands
    before position [i]. *)
Definition Selects {A} (mime : A -> option string) (rate : A -> option Z)
    (fs : list A) (result : option A) : Prop :=
  (result = None <-> forall f, In f fs -> ~ HasAudio (mime f)) /\
  (fs = [] -> result = None) /\
  (forall x, result = Some x ->
     exists i,
       pick_audio_ref mime rate fs = Some (i, x) /\
       nth_error fs i = Some x /\ HasAudio (mime x) /\
       forall j y bx b, nth_error fs j = Some y -> HasAudio (mime y) ->
         Counts (rate x) bx -> Counts (rate y) b ->
         (b <= bx)%Z /\ (b = bx -> i <= j)).

(** [FirstMaximalAudio mime rate fs i x]: cell [i] of [fs] holds [x], an
    audio format; no audio format of [fs] has a larger bitrate and none of
    the same bitrate stands before position [i]. *)
Definition FirstMaximalAudio {A} (mime : A -> option string) (rate : A -> option Z)
    (fs : list A) (i : nat) (x : A) : Prop :=
  nth_error fs i = Some x /\ HasAudio (mime x) /\
  forall j y, nth_error fs j = Some y -> HasAudio (mime y) ->
    (bitrate_of (rate y) <= bitrate_of (rate x))%Z /\
    (bitrate_of (rate y) = bitrate_of (rate x) -> i <= j).

(* ===================================================================== *)
(** ** Data exchanged with the libraries *)
(* ===================================================================== *)

(** A call that may throw (or a promise that may reject): [Threw m] carries
    the [message] of the error. *)
Inductive Outcome (A : Type) : Type :=
| Ok (a : A)
| Threw (message : string).
Arguments Ok {A} a.
Arguments Threw {A} message.

(** [o?.f] *)
Definition opt_chain {A B} (o : option A) (f : A -> option B) : option B :=
  match o with
  | Some a => f a
  | None => None
  end.

(** Items returned by ytsr. *)
Module Ytsr.
Record Author := { name : option string; channelID : option string }.
Record Thumbnail := { url : option string }.
Record Item := {
  type : string;
  id : string;
  title : string;
  author : option Author;
  bestThumbnail : option Thumbnail;
  duration : option string
}.
End Ytsr.

(** The objects the search handler answers with. *)
Module SearchResult.
Record t := {
  id : string;
  title : string;
  artist : string;
  thumbnail : string;
  duration : option string;
  authorId : string
}.
End SearchResult.

(** Options handed to yt-dlp-exec. *)
Record YtdlpOptions := {
  getUrl : bool;
  format : option string;
  extractAudio : bool;
  audioFormat : option string;
  audioQuality : option Z;
  output : option string;
  noCheckCertificates : bool;
  noWarnings : bool
}.

(** Formats of play-dl's [video_info]. *)
Module PlayDl.
Record Format := {
  mimeType : option string;
  bitrate : option Z;
  url : option string
}.
Record Info := { format : list Format }.
End PlayDl.

(** Formats of youtubei.js' [getBasicInfo]; [decipher] takes the session's
    player. *)
Module Innertube.
Record Format (Player : Type) := {
  mime_type : option string;
  bitrate : option Z;
  url : option string;
  decipher : option (Player -> Outcome string)
}.
Record StreamingData (Player : Type) := {
  adaptive_formats : option (list (Format Player))
}.
Record Info (Player : Type) := {
  streaming_data : option (StreamingData Player)
}.
End Innertube.

(** The capabilities the server gets from Node and from its dependencies.
    [World] is everything outside the process (network, disk). *)
Record Host := {
  World : Type;
  Client : Type;                      (* an Innertube instance *)
  Player : Type;                      (* client.session.player *)
  Stream : Type;                      (* a play-dl stream *)
  session_player : Client -> Player;
  dirname : string;                   (* __dirname *)
  path_join : string -> string -> string;
  existsSync : string -> World -> bool;
  readdirSync : string -> World -> Outcome (list string);
  renameSync : string -> string -> World -> Outcome unit * World;
  ytsr : string -> nat -> World -> Outcome (list Ytsr.Item) * World;
  ytdlp : string -> YtdlpOptions -> World -> Outcome string * World;
  video_info : string -> World -> Outcome PlayDl.Info * World;
  play_stream : string -> nat -> World -> Outcome Stream * World;
  Innertube_create : World -> Outcome Client * World;
  getBasicInfo : Client -> string -> World -> Outcome (Innertube.Info Player) * World
}.

(** What a handler hands to [res]. *)
Inductive JsonBody : Type :=
| UrlBody (url videoId : string)                  (* { url, videoId } *)
| ErrorBody (error : string)                      (* { error } *)
| ItemsBody (items : list SearchResult.t).        (* { items } *)

Inductive Response (S : Type) : Type :=
| Json (status : nat) (body : JsonBody)           (* res.status(n).json(b) *)
| Send (status : nat) (text : string)             (* res.status(n).send(t) *)
| Redirect (location : string)                    (* res.redirect(l) *)
| SendFile (path : string)                        (* res.sendFile(p) *)
| Pipe (headers : list (string * string)) (stream : S). (* stream.pipe(res) *)
Arguments Json {S} status body.
Arguments Send {S} status text.
Arguments Redirect {S} location.
Arguments SendFile {S} path.
Arguments Pipe {S} headers stream.

(** HTTP status of a response (302 for a redirect, 200 by default). *)
Definition status_of {S} (r : Response S) : nat :=
  match r with
  | Json n _ => n
  | Send n _ => n
  | Redirect _ => 302
  | SendFile _ => 200
  | Pipe _ _ => 200
  end.

(* ===================================================================== *)
(** ** The handler monad: host state, the module variable [yt], call log *)
(* ===================================================================== *)

Section Monad.
Variable H : Host.

(** Calls made to the host, in order. *)
Inductive Call : Type :=
| CallYtsr (query : string) (limit : nat)
| CallYtdlp (url : string) (opts : YtdlpOptions)
| CallVideoInfo (url : string)
| CallPlayStream (url : string) (quality : nat)
| CallCreate
| CallGetBasicInfo (c : Client H) (videoId : string)
| CallDecipher (p : Player H)
| CallExistsSync (path : string)
| CallReaddirSync (dir : string)
| CallRenameSync (from to : string).

Record State := {
  world : World H;
  yt : option (Client H);     (* [let yt = null] of the Innertube variant *)
  log : list Call
}.

Definition M (A : Type) : Type := State -> Outcome A * State.

Definition ret {A} (a : A) : M A := fun s => (Ok a, s).

Definition bind {A B} (m : M A) (k : A -> M B) : M B :=
  fun s => match m s with
           | (Ok a, s') => k a s'
           | (Threw e, s') => (Threw e, s')
           end.

(** [throw new Error(msg)] *)
Definition throw {A} (msg : string) : M A := fun s => (Threw msg, s).

(** [try { body } catch (e) { handler(e.message) }] for a body and a
    handler that both end by answering. *)
Definition try_catch {A} (body : M A) (handler : string -> A) : State -> A * State :=
  fun s => match body s with
           | (Ok a, s') => (a, s')
           | (Threw e, s') => (handler e, s')
           end.

Definition record (c : Call) (s : State) : State :=
  {| world := world s; yt := yt s; log := log s ++ [c] |}.

(** A logged call that may change the world. *)
Definition call {A} (c : Call) (op : World H -> Outcome A * World H) : M A :=
  fun s => let (r, w) := op (world s) in
           (r, {| world := w; yt := yt s; log := log s ++ [c] |}).

(** A logged call that only reads the world. *)
Definition query {A} (c : Call) (op : World H -> A) : M A :=
  fun s => (Ok (op (world s)), record c s).

(** A logged call to a function value (no access to the world). *)
Definition invoke {A} (c : Call) (r : Outcome A) : M A :=
  fun s => (r, record c s).

Definition get_yt : M (option (Client H)) := fun s => (Ok (yt s), s).

Definition set_yt (c : option (Client H)) : M unit :=
  fun s => (Ok tt, {| world := world s; yt := c; log := log s |}).
End Monad.

Arguments ret {H A} a.
Arguments throw {H A} msg.
Arguments CallYtsr {H}.
Arguments CallYtdlp {H}.
Arguments CallVideoInfo {H}.
Arguments CallPlayStream {H}.
Arguments CallCreate {H}.
Arguments CallGetBasicInfo {H}.
Arguments CallDecipher {H}.
Arguments CallExistsSync {H}.
Arguments CallReaddirSync {H}.
Arguments CallRenameSync {H}.

Declare Scope js_scope.
Delimit Scope js_scope with js.
Notation "x <- m ;; k" := (bind m (fun x => k))
  (at level 61, m at next level, right associativity) : js_scope.
Notation "m ;;; k" := (bind m (fun _ => k))
  (at level 61, right associativity) : js_scope.
Local Open Scope js_scope.

(** [!videoId || videoId.length !== 11] *)
Definition invalid_id (videoId : string) : bool :=
  (String.length videoId =? 0)%nat || negb (String.length videoId =? 11)%nat.

(** The double-quote character, as a string. *)
Definition dquote : string := String (ascii_of_nat 34) EmptyString.

Definition watch_url (videoId : string) : string :=
  "https://www.youtube.com/watch?v=" ++ videoId.

(* ===================================================================== *)
(** ** Search (the same code in the three variants) *)
(* ===================================================================== *)

(** The arrow function given to [.map] in the search handler. *)
Definition toSearchResult (v : Ytsr.Item) : SearchResult.t :=
  {| SearchResult.id := Ytsr.id v;
     SearchResult.title := Ytsr.title v;
     SearchResult.artist :=
       JS.or_else (opt_chain (Ytsr.author v) Ytsr.name) "Unknown";
     SearchResult.thumbnail :=
       JS.or_else (opt_chain (Ytsr.bestThumbnail v) Ytsr.url)
                  ("https://img.youtube.com/vi/" ++ Ytsr.id v ++ "/hqdefault.jpg");
     SearchResult.duration := Ytsr.duration v;
     SearchResult.authorId :=
       JS.or_else (opt_chain (Ytsr.author v) Ytsr.channelID) "" |}.

(** [results.items.filter(i => i.type === 'video').map(...)] *)
Definition videos (items : list Ytsr.Item) : list SearchResult.t :=
  map toSearchResult (filter (fun i => Ytsr.type i =? "video") items).

Section Handlers.
Variable H : Host.

Definition Handler : Type := State H -> Response (Stream H) * State H.

(** [return res...] before the [try] block. *)
Definition answer (r : Response (Stream H)) : Handler := fun s => (r, s).

(** GET /api/search; [q] is [req.query.q]. *)
Definition search (q : option string) : Handler :=
  let query := JS.or_else q "" in
  try_catch
    (items <- call (CallYtsr query 20) (ytsr H query 20) ;;
     ret (Json 200 (ItemsBody (videos items))))
    (fun e => Json 500 (ErrorBody e)).

(* ------------------------------------------------------------------- *)
(** *** The yt-dlp variant (src/index.js, first module) *)
(* ------------------------------------------------------------------- *)

Definition DOWNLOADS_DIR : string := path_join H (dirname H) "downloads".

Definition url_options : YtdlpOptions :=
  {| getUrl := true;
     format := Some "bestaudio[ext=m4a]/bestaudio/best";
     extractAudio := false; audioFormat := None; audioQuality := None;
     output := None;
     noCheckCertificates := true; noWarnings := true |}.

Definition download_options (out : string) : YtdlpOptions :=
  {| getUrl := false; format := None;
     extractAudio := true; audioFormat := Some "mp3"; audioQuality := Some 0%Z;
     output := Some out;
     noCheckCertificates := true; noWarnings := true |}.

(** GET /api/audio-url/:videoId *)
Definition ytdlp_audio_url (videoId : string) : Handler :=
  if invalid_id videoId then answer (Json 400 (ErrorBody "Invalid video ID"))
  else
    try_catch
      (let url := watch_url videoId in
       result <- call (CallYtdlp url url_options) (ytdlp H url url_options) ;;
       ret (Json 200 (UrlBody (JS.trim result) videoId)))
      (fun e => Json 500 (ErrorBody e)).

(** GET /api/stream/:videoId *)
Definition ytdlp_stream (videoId : string) : Handler :=
  if invalid_id videoId then answer (Send 400 "Invalid video ID")
  else
    try_catch
      (let url := watch_url videoId in
       result <- call (CallYtdlp url url_options) (ytdlp H url url_options) ;;
       let audioUrl := JS.trim result in
       ret (Redirect audioUrl))
      (fun _ => Send 500 "Stream error").

(** GET /api/download/:videoId *)
Definition ytdlp_download (videoId : string) : Handler :=
  if invalid_id videoId then answer (Send 400 "Invalid video ID")
  else
    let outputPath := path_join H DOWNLOADS_DIR (videoId ++ ".mp3") in
    try_catch
      (cached <- query (CallExistsSync outputPath) (existsSync H outputPath) ;;
       if cached then ret (SendFile outputPath)
       else
         let url := watch_url videoId in
         let opts := download_options (JS.replace outputPath ".mp3" ".%(ext)s") in
         _ <- call (CallYtdlp url opts) (ytdlp H url opts) ;;
         files <- call (CallReaddirSync DOWNLOADS_DIR)
                       (fun w => (readdirSync H DOWNLOADS_DIR w, w)) ;;
         let downloadedFile := JS.find (fun f => JS.startsWith f videoId) files in
         if JS.truthy downloadedFile then
           let actualPath := path_join H DOWNLOADS_DIR (JS.or_else downloadedFile "") in
           (if negb (actualPath =? outputPath) then
              there <- query (CallExistsSync actualPath) (existsSync H actualPath) ;;
              if there
              then call (CallRenameSync actualPath outputPath)
                        (renameSync H actualPath outputPath)
              else ret tt
            else ret tt) ;;;
           ret (SendFile outputPath)
         else ret (Send 500 "Download failed"))
      (fun _ => Send 500 "Download error").

(* ------------------------------------------------------------------- *)
(** *** The play-dl variant (src/index.js, second module) *)
(* ------------------------------------------------------------------- *)

(** [info.format.filter(...).sort(...)[0]] *)
Definition playdl_select (info : PlayDl.Info) : option PlayDl.Format :=
  pick_audio PlayDl.mimeType PlayDl.bitrate (PlayDl.format info).

(** GET /api/audio-url/:videoId *)
Definition playdl_audio_url (videoId : string) : Handler :=
  if invalid_id videoId then answer (Json 400 (ErrorBody "Invalid video ID"))
  else
    try_catch
      (let url := watch_url videoId in
       info <- call (CallVideoInfo url) (video_info H url) ;;
       let format := playdl_select info in
       if JS.truthy (opt_chain format PlayDl.url)
       then ret (Json 200 (UrlBody (JS.or_else (opt_chain format PlayDl.url) "") videoId))
       else throw "No audio format found")
      (fun e => Json 500 (ErrorBody e)).

(** GET /api/stream/:videoId; the listeners attached after [pipe] act on
    later events and are not part of the answer. *)
Definition playdl_stream (videoId : string) : Handler :=
  if invalid_id videoId then answer (Send 400 "Invalid video ID")
  else
    try_catch
      (let url := watch_url videoId in
       stream <- call (CallPlayStream url 2) (play_stream H url 2) ;;
       ret (Pipe [("Content-Type", "audio/mpeg"); ("Accept-Ranges", "bytes")] stream))
      (fun _ => Send 500 "Stream error").

(** Node's check of a header value: every character is a tab, or lies
    between 0x20 and 0x7e, or is 0x80 or above. *)
Definition header_char_ok (c : ascii) : bool :=
  let n := nat_of_ascii c in
  (n =? 9)%nat || ((32 <=? n)%nat && (n <=? 126)%nat) || (128 <=? n)%nat.

Fixpoint header_value_ok (value : string) : bool :=
  match value with
  | EmptyString => true
  | String c rest => header_char_ok c && header_value_ok rest
  end.

(** [res.setHeader(name, value)]: throws on a value Node refuses, before
    anything is sent. *)
Definition setHeader (name value : string) : M H (string * string) :=
  if header_value_ok value then ret (name, value)
  else throw ("Invalid character in header content [" ++ dquote ++ name ++ dquote ++ "]").

(** The value of the Content-Disposition header of a download. *)
Definition attachment (videoId : string) : string :=
  "attachment; filename=" ++ dquote ++ videoId ++ ".mp3" ++ dquote.

(** GET /api/download/:videoId; both headers are set inside the [try],
    after [play.stream] has resolved. *)
Definition playdl_download (videoId : string) : Handler :=
  if invalid_id videoId then answer (Send 400 "Invalid video ID")
  else
    try_catch
      (let url := watch_url videoId in
       stream <- call (CallPlayStream url 2) (play_stream H url 2) ;;
       contentType <- setHeader "Content-Type" "audio/mpeg" ;;
       disposition <- setHeader "Content-Disposition" (attachment videoId) ;;
       ret (Pipe [contentType; disposition] stream))
      (fun _ => Send 500 "Download error").

(* ------------------------------------------------------------------- *)
(** *** The Innertube variant (src/unnamed/part_000) *)
(* ------------------------------------------------------------------- *)

Definition IFormat : Type := Innertube.Format (Player H).
Definition IInfo : Type := Innertube.Info (Player H).

(** [async function initYT()], run without interruption. *)
Definition initYT : M H (option (Client H)) :=
  current <- @get_yt H ;;
  (match current with
   | None =>
       created <- call CallCreate (Innertube_create H) ;;
       set_yt (Some created)
   | Some _ => ret tt
   end) ;;;
  @get_yt H.

(** Member access on the value returned by [initYT]. *)
Definition deref (youtube : option (Client H)) : M H (Client H) :=
  match youtube with
  | Some c => ret c
  | None => throw "Cannot read properties of null"
  end.

(** [info.streaming_data?.adaptive_formats?.filter(...)?.sort(...)[0]] *)
Definition innertube_select (info : IInfo) : option IFormat :=
  opt_chain
    (opt_chain (Innertube.streaming_data info) (@Innertube.adaptive_formats _))
    (pick_audio (@Innertube.mime_type _) (@Innertube.bitrate _)).

(** GET /api/audio-url/:videoId *)
Definition innertube_audio_url (videoId : string) : Handler :=
  if invalid_id videoId then answer (Json 400 (ErrorBody "Invalid video ID"))
  else
    try_catch
      (youtube <- initYT ;;
       client <- deref youtube ;;
       info <- call (CallGetBasicInfo client videoId) (getBasicInfo H client videoId) ;;
       let format := innertube_select info in
       match opt_chain format (@Innertube.decipher _) with
       | Some decipher =>
           let player := session_player H client in
           url <- invoke (CallDecipher player) (decipher player) ;;
           ret (Json 200 (UrlBody url videoId))
       | None =>
           if JS.truthy (opt_chain format (@Innertube.url _))
           then ret (Json 200
                       (UrlBody (JS.or_else (opt_chain format (@Innertube.url _)) "") videoId))
           else throw "No audio format found"
       end)
      (fun e => Json 500 (ErrorBody e)).

(** GET /api/stream/:videoId *)
Definition innertube_stream (videoId : string) : Handler :=
  if invalid_id videoId then answer (Send 400 "Invalid video ID")
  else
    try_catch
      (youtube <- initYT ;;
       client <- deref youtube ;;
       info <- call (CallGetBasicInfo client videoId) (getBasicInfo H client videoId) ;;
       match innertube_select info with
       | None => throw "No audio format available"
       | Some format =>
           audioUrl <-
             match Innertube.decipher format with
             | Some decipher =>
                 let player := session_player H client in
                 invoke (CallDecipher player) (decipher player)
             | None =>
                 if JS.truthy (Innertube.url format)
                 then ret (JS.or_else (Innertube.url format) "")
                 else throw "Cannot get audio URL"
             end ;;
           ret (Redirect audioUrl)
       end)
      (fun e => Send 500 ("Stream error: " ++ e)).

(** GET /api/download/:videoId *)
Definition innertube_download (videoId : string) : Handler :=
  answer (Redirect ("/api/stream/" ++ videoId)).

(** The server listening on [port], [banner] printed. *)
Inductive Boot : Type := Listening (port banner : string).

(** What the callbacks of the last statement of the module find for the two
    identifiers they read: whether [app] has a binding, and the value of
    [PORT] when it has one. *)
Record Bindings := {
  app_bound : bool;
  PORT : option string
}.

(** [app.listen(PORT, () => console.log(`External Proxy Server running on
    port ${PORT}` + suffix))]: [app] is read first, then [PORT]; reading an
    identifier that has no binding throws a ReferenceError. *)
Definition listen (b : Bindings) (suffix : string) : Outcome Boot :=
  if app_bound b then
    match PORT b with
    | Some port =>
        Ok (Listening port ("External Proxy Server running on port " ++ port ++ suffix))
    | None => Threw "PORT is not defined"
    end
  else Threw "app is not defined".

(** [initYT().then(() => listen).catch(e => listen)]: what the promise chain
    settles to.  The first callback runs when [initYT] is fulfilled; the
    second one when [initYT] is rejected and also when the first callback
    throws. *)
Definition boot (b : Bindings) : State H -> Outcome Boot * State H :=
  fun s =>
    let (initialised, s') := initYT s in
    let then_ :=
      match initialised with
      | Ok _ => listen b ""
      | Threw e => Threw e
      end in
    (match then_ with
     | Ok listening => Ok listening
     | Threw _ => listen b " (Innertube will init on first request)"
     end, s').

(** The last statement of the module as it stands: the module declares
    neither [app] nor [PORT]. *)
Definition startup : State H -> Outcome Boot * State H :=
  boot {| app_bound := false; PORT := None |}.

(** Number of platform-client creation calls in a log. *)
Definition creations (l : list (Call H)) : nat :=
  length (filter (fun c => match c with CallCreate => true | _ => false end) l).

(* ------------------------------------------------------------------- *)
(** *** [initYT] with its suspension point *)
(* ------------------------------------------------------------------- *)

(** A pending call of [initYT]: not started, suspended at
    [await Innertube.create(...)] with the promise's eventual outcome,
    fulfilled with the value of [yt], or rejected. *)
Inductive Task : Type :=
| Ready
| Awaiting (promise : Outcome (Client H))
| Returned (value : option (Client H))
| Failed (message : string).

Record Sys := {
  st : State H;
  tasks : list Task
}.

(** [Enter i]: call [i] runs from its start to its first suspension (or to
    its end); [Resume i]: the awaited promise of call [i] has settled and
    the call runs to its end. *)
Inductive Event : Type :=
| Enter (i : nat)
| Resume (i : nat).

Fixpoint set_task (i : nat) (t : Task) (l : list Task) : list Task :=
  match l, i with
  | [], _ => []
  | _ :: r, O => t :: r
  | x :: r, S j => x :: set_task j t r
  end.

Definition step (e : Event) (x : Sys) : option Sys :=
  match e with
  | Enter i =>
      match nth_error (tasks x) i with
      | Some Ready =>
          match yt (st x) with
          | Some _ =>
              Some {| st := st x; tasks := set_task i (Returned (yt (st x))) (tasks x) |}
          | None =>
              let (promise, s') := call CallCreate (Innertube_create H) (st x) in
              Some {| st := s'; tasks := set_task i (Awaiting promise) (tasks x) |}
          end
      | _ => None
      end
  | Resume i =>
      match nth_error (tasks x) i with
      | Some (Awaiting (Ok created)) =>
          let s' := snd (set_yt (Some created) (st x)) in
          Some {| st := s'; tasks := set_task i (Returned (yt s')) (tasks x) |}
      | Some (Awaiting (Threw e)) =>
          Some {| st := st x; tasks := set_task i (Failed e) (tasks x) |}
      | _ => None
      end
  end.

Fixpoint run (es : list Event) (x : Sys) : option Sys :=
  match es with
  | [] => Some x
  | e :: rest =>
      match step e x with
      | Some x' => run rest x'
      | None => None
      end
  end.

(** [n] calls of [initYT] about to be made in state [s]. *)
Definition pending (n : nat) (s : State H) : Sys :=
  {| st := s; tasks := repeat Ready n |}.

End Handlers.

Arguments Ready {H}.
Arguments Awaiting {H} promise.
Arguments Returned {H} value.
Arguments Failed {H} message.

(* ===================================================================== *)
(** ** Loading a module: top-level bindings and what the statements read *)
(* ===================================================================== *)

Module Loader.

(** What evaluating a top-level statement does to the Express app.
    [Later reads e]: a callback is scheduled; it runs after the module has
    been evaluated, reads [reads] and then does [e]. *)
Inductive Effect : Type :=
| Nothing
| Use
| Route (method path : string)
| Listen
| Later (reads : list string) (e : Effect).

(** A top-level statement, with the identifiers it reads while it is
    evaluated, in evaluation order (bodies of functions that are only
    defined, not called, are not evaluated). *)
Inductive Stmt : Type :=
| Binding (names : list string) (reads : list string)  (* const / let *)
| Function_ (name : string)                             (* hoisted declaration *)
| Expression (reads : list string) (e : Effect).

Record Loaded := {
  scope : list string;             (* initialised bindings *)
  middleware : nat;
  routes : list (string * string);
  listening : bool;
  thrown : option string           (* ReferenceError: <name> is not defined *)
}.

(** Names bound in every CommonJS module. *)
Definition node_scope : list string :=
  ["require"; "module"; "exports"; "__dirname"; "__filename"; "process"; "console"].

Definition hoisted (m : list Stmt) : list string :=
  flat_map (fun s => match s with Function_ f => [f] | _ => [] end) m.

Definition declared (m : list Stmt) : list string :=
  flat_map (fun s => match s with
                     | Binding names _ => names
                     | Function_ f => [f]
                     | Expression _ _ => []
                     end) m.

Fixpoint effect_reads (e : Effect) : list string :=
  match e with
  | Later reads e' => (reads ++ effect_reads e')%list
  | _ => []
  end.

Definition referenced (m : list Stmt) : list string :=
  flat_map (fun s => match s with
                     | Binding _ reads => reads
                     | Function_ _ => []
                     | Expression reads e => (reads ++ effect_reads e)%list
                     end) m.

Definition bound (x : string) (sc : list string) : bool :=
  existsb (String.eqb x) sc.

(** First identifier of [reads] that has no initialised binding. *)
Definition unresolved (reads sc : list string) : option string :=
  List.find (fun x => negb (bound x sc)) reads.

Definition apply_effect (e : Effect) (l : Loaded) : Loaded :=
  match e with
  | Use =>
      {| scope := scope l; middleware := S (middleware l); routes := routes l;
         listening := listening l; thrown := thrown l |}
  | Route m p =>
      {| scope := scope l; middleware := middleware l; routes := routes l ++ [(m, p)];
         listening := listening l; thrown := thrown l |}
  | Listen =>
      {| scope := scope l; middleware := middleware l; routes := routes l;
         listening := true; thrown := thrown l |}
  | Nothing | Later _ _ => l
  end.

Definition fail (x : string) (l : Loaded) : Loaded :=
  {| scope := scope l; middleware := middleware l; routes := routes l;
     listening := listening l; thrown := Some x |}.

Definition exec (s : Stmt) (l : Loaded) : Loaded :=
  match s with
  | Binding names reads =>
      match unresolved reads (scope l) with
      | Some x => fail x l
      | None =>
          {| scope := scope l ++ names; middleware := middleware l; routes := routes l;
             listening := listening l; thrown := thrown l |}
      end
  | Function_ _ => l
  | Expression reads e =>
      match unresolved reads (scope l) with
      | Some x => fail x l
      | None => apply_effect e l
      end
  end.

(** Statements are evaluated in order; the first error ends evaluation. *)
Fixpoint eval (m : list Stmt) (l : Loaded) : Loaded :=
  match m with
  | [] => l
  | s :: rest =>
      let l' := exec s l in
      match thrown l' with
      | Some _ => l'
      | None => eval rest l'
      end
  end.

Definition load (m : list Stmt) : Loaded :=
  eval m {| scope := (node_scope ++ hoisted m)%list; middleware := 0; routes := [];
            listening := false; thrown := None |}.

(** src/index.js, first module. *)
Definition ytdlp_module : list Stmt :=
  [ Binding ["express"] ["require"];
    Binding ["cors"] ["require"];
    Binding ["ytdlp"] ["require"];
    Binding ["ytsr"] ["require"];
    Binding ["fs"] ["require"];
    Binding ["path"] ["require"];
    Binding ["app"] ["express"];
    Binding ["PORT"] ["process"];
    Expression ["app"; "cors"] Use;
    Expression ["app"; "express"] Use;
    Binding ["DOWNLOADS_DIR"] ["path"; "__dirname"];
    Expression ["fs"; "DOWNLOADS_DIR"] Nothing;
    Expression ["app"] (Route "GET" "/health");
    Expression ["app"] (Route "GET" "/api/search");
    Expression ["app"] (Route "GET" "/api/audio-url/:videoId");
    Expression ["app"] (Route "GET" "/api/stream/:videoId");
    Expression ["app"] (Route "GET" "/api/download/:videoId");
    Expression ["app"; "PORT"] Listen ].

(** src/index.js, second module. *)
Definition playdl_module : list Stmt :=
  [ Binding ["express"] ["require"];
    Binding ["cors"] ["require"];
    Binding ["ytsr"] ["require"];
    Binding ["play"] ["require"];
    Binding ["app"] ["express"];
    Binding ["PORT"] ["process"];
    Expression ["app"; "cors"] Use;
    Expression ["app"; "express"] Use;
    Expression ["app"] (Route "GET" "/health");
    Expression ["app"] (Route "GET" "/api/search");
    Expression ["app"] (Route "GET" "/api/audio-url/:videoId");
    Expression ["app"] (Route "GET" "/api/stream/:videoId");
    Expression ["app"] (Route "GET" "/api/download/:videoId");
    Expression ["app"; "PORT"] Listen ].

(** src/unnamed/part_000. *)
Definition innertube_module : list Stmt :=
  [ Binding ["express"] ["require"];
    Binding ["cors"] ["require"];
    Binding ["ytsr"] ["require"];
    Binding ["Innertube"] ["require"];
    Expression ["app"; "cors"] Use;
    Expression ["app"; "express"] Use;
    Binding ["yt"] [];
    Function_ "initYT";
    Expression ["app"] (Route "GET" "/health");
    Expression ["app"] (Route "GET" "/api/search");
    Expression ["app"] (Route "GET" "/api/audio-url/:videoId");
    Expression ["app"] (Route "GET" "/api/stream/:videoId");
    Expression ["app"] (Route "GET" "/api/download/:videoId");
    Expression ["initYT"; "yt"; "console"; "Innertube"]
               (Later ["app"; "PORT"] Listen) ].

End Loader.

(* ===================================================================== *)
(** ** A small concrete host, to run the handlers on examples *)
(* ===================================================================== *)

Module Demo.

(** The disk is the list of its files (absolute paths, in directory
    order); [supply] scripts the outcomes of the successive
    [Innertube.create] calls. *)
Record Machine := {
  disk : list string;
  supply : list (Outcome nat)
}.

(** POSIX [path.join] of an absolute directory and a relative name. *)
Fixpoint segments (s : string) : list string :=
  match s with
  | EmptyString => [EmptyString]
  | String c rest =>
      if Ascii.eqb c "/"%char then EmptyString :: segments rest
      else match segments rest with
           | h :: t => String c h :: t
           | [] => [String c EmptyString]
           end
  end.

Definition push_segment (stack : list string) (seg : string) : list string :=
  if (seg =? "") || (seg =? ".") then stack
  else if seg =? ".." then removelast stack
  else (stack ++ [seg])%list.

Definition normalize (p : string) : string :=
  match fold_left push_segment (segments p) [] with
  | [] => "/"
  | stack => String.concat "" (map (fun seg => "/" ++ seg) stack)
  end.

Definition join (dir name : string) : string := normalize (dir ++ "/" ++ name).

Definition exists_file (p : string) (w : Machine) : bool :=
  existsb (String.eqb p) (disk w).

(** Names of the files that sit directly in [dir]. *)
Definition list_dir (dir : string) (w : Machine) : list string :=
  flat_map
    (fun p =>
       let d := dir ++ "/" in
       if String.prefix d p then
         let name := String.substring (String.length d)
                                      (String.length p - String.length d) p in
         if JS.includes name "/" then [] else [name]
       else [])
    (disk w).

Definition rename (from to : string) (w : Machine) : Outcome unit * Machine :=
  if exists_file from w then
    (Ok tt,
     {| disk := map (fun p => if p =? from then to else p)
                    (filter (fun p => negb (p =? to)) (disk w));
        supply := supply w |})
  else (Threw "ENOENT: no such file or directory", w).

(** A downloader that saves the audio with extension [ext]. *)
Definition download (ext : string) (url : string) (o : YtdlpOptions) (w : Machine)
  : Outcome string * Machine :=
  if getUrl o then (Ok (" https://cdn.example/audio.m4a" ++ String (ascii_of_nat 10) ""), w)
  else match output o with
       | Some template =>
           (Ok "", {| disk := (disk w ++ [JS.replace template "%(ext)s" ext])%list;
                      supply := supply w |})
       | None => (Ok "", w)
       end.

Definition create (w : Machine) : Outcome nat * Machine :=
  match supply w with
  | r :: rest => (r, {| disk := disk w; supply := rest |})
  | [] => (Ok 0, w)
  end.

Definition item : Ytsr.Item :=
  {| Ytsr.type := "video"; Ytsr.id := "dQw4w9WgXcQ"; Ytsr.title := "A song";
     Ytsr.author := Some {| Ytsr.name := Some "A singer"; Ytsr.channelID := Some "UC123" |};
     Ytsr.bestThumbnail := None; Ytsr.duration := Some "3:33" |}.

(** A host whose downloader saves [ext] files and whose platform answers
    every metadata request with [formats]. *)
Definition host (ext : string) (formats : list (Innertube.Format nat)) : Host :=
  {| World := Machine;
     Client := nat;
     Player := nat;
     Stream := string;
     session_player := fun c => c;
     dirname := "/srv/app";
     path_join := join;
     existsSync := exists_file;
     readdirSync := fun d w => Ok (list_dir d w);
     renameSync := rename;
     ytsr := fun _ _ w => (Ok [item], w);
     ytdlp := download ext;
     video_info := fun _ w =>
       (Ok {| PlayDl.format :=
                [ {| PlayDl.mimeType := Some "audio/webm"; PlayDl.bitrate := Some 160%Z;
                     PlayDl.url := Some "U1" |} ] |}, w);
     play_stream := fun url _ w => (Ok url, w);
     Innertube_create := create;
     getBasicInfo := fun _ _ w =>
       (Ok {| Innertube.streaming_data :=
                Some {| Innertube.adaptive_formats := Some formats |} |}, w) |}.

(** A host whose platform answers play-dl's metadata request with
    [formats]; everything else as in [host "mp3" []]. *)
Definition playdl_host (formats : list PlayDl.Format) : Host :=
  {| World := Machine;
     Client := nat;
     Player := nat;
     Stream := string;
     session_player := fun c => c;
     dirname := "/srv/app";
     path_join := join;
     existsSync := exists_file;
     readdirSync := fun d w => Ok (list_dir d w);
     renameSync := rename;
     ytsr := fun _ _ w => (Ok [item], w);
     ytdlp := download "mp3";
     video_info := fun _ w => (Ok {| PlayDl.format := formats |}, w);
     play_stream := fun url _ w => (Ok url, w);
     Innertube_create := create;
     getBasicInfo := fun _ _ w =>
       (Ok {| Innertube.streaming_data :=
                Some {| Innertube.adaptive_formats := Some [] |} |}, w) |}.

(** The state at start on that host. *)
Definition playdl_fresh (formats : list PlayDl.Format) : State (playdl_host formats) :=
  {| world := ({| disk := []; supply := [] |} : World (playdl_host formats));
     yt := None; log := [] |}.

(** play-dl formats: audio with a bitrate and a URL, audio with a bitrate
    and no URL, audio with a URL and no bitrate, and video. *)
Definition audio_at (rate : Z) (u : string) : PlayDl.Format :=
  {| PlayDl.mimeType := Some "audio/webm; codecs=opus"; PlayDl.bitrate := Some rate;
     PlayDl.url := Some u |}.

Definition audio_without_url (rate : Z) : PlayDl.Format :=
  {| PlayDl.mimeType := Some "audio/mp4"; PlayDl.bitrate := Some rate;
     PlayDl.url := None |}.

Definition audio_unrated (u : string) : PlayDl.Format :=
  {| PlayDl.mimeType := Some "audio/mp4"; PlayDl.bitrate := None;
     PlayDl.url := Some u |}.

Definition video_at (rate : Z) (u : string) : PlayDl.Format :=
  {| PlayDl.mimeType := Some "video/mp4"; PlayDl.bitrate := Some rate;
     PlayDl.url := Some u |}.

(** An audio format with neither [decipher] nor [url], and a video format. *)
Definition bare_audio : Innertube.Format nat :=
  {| Innertube.mime_type := Some "audio/webm"; Innertube.bitrate := Some 128%Z;
     Innertube.url := None; Innertube.decipher := None |}.

Definition video_only : Innertube.Format nat :=
  {| Innertube.mime_type := Some "video/mp4"; Innertube.bitrate := Some 1000%Z;
     Innertube.url := Some "V"; Innertube.decipher := None |}.

(** A state of the server on that host. *)
Definition state (ext : string) (formats : list (Innertube.Format nat))
    (files : list string) (script : list (Outcome nat))
    (session : option nat) (calls : list (Call (host ext formats)))
  : State (host ext formats) :=
  {| world := ({| disk := files; supply := script |} : World (host ext formats));
     yt := session; log := calls |}.
Arguments state : clear implicits.

(** The state at start: no session, nothing logged. *)
Definition fresh (files : list string) (script : list (Outcome nat))
    (ext : string) (formats : list (Innertube.Format nat)) : State (host ext formats) :=
  state ext formats files script None [].

End Demo.

(* ===================================================================== *)
(** ** Statements about handlers *)
(* ===================================================================== *)

(** [Rejects400 h]: for every id whose length is not 11, the handler answers
    with status 400 and leaves the state as it was: no call to the host is
    logged, the world and the session variable are unchanged. *)
Definition Rejects400 {H : Host} (h : string -> Handler H) : Prop :=
  forall (videoId : string) (s : State H),
    String.length videoId <> 11 ->
    status_of (fst (h videoId s)) = 400 /\ snd (h videoId s) = s.

(** Number of calls to the download capability (yt-dlp) in a log. *)
Definition downloads {H : Host} (l : list (Call H)) : nat :=
  length (filter (fun c => match c with CallYtdlp _ _ => true | _ => false end) l).

(** [n] requests served one after the other by the same handler: the
    answers, and the state after the last one. *)
Fixpoint serve {H : Host} (h : Handler H) (n : nat) (s : State H)
  : list (Response (Stream H)) * State H :=
  match n with
  | O => ([], s)
  | S k => let (r, s') := h s in
           let (rs, s'') := serve h k s' in
           (r :: rs, s'')
  end.

(** The canonical path of the audio file of [videoId]. *)
Definition canonical (H : Host) (videoId : string) : string :=
  path_join H (DOWNLOADS_DIR H) (videoId ++ ".mp3").

(** [Grows m]: running [m] only appends to the call log. *)
Definition Grows {H : Host} {A : Type} (m : M H A) : Prop :=
  forall s, exists rest, log (snd (m s)) = (log s ++ rest)%list.

(** A call of [initYT] that has run to its end. *)
Definition finished {H : Host} (t : Task H) : bool :=
  match t with
  | Returned _ | Failed _ => true
  | Ready | Awaiting _ => false
  end.

(** The task a call of [initYT] ends in, from its outcome. *)
Definition settled {H : Host} (r : Outcome (option (Client H))) : Task H :=
  match r with
  | Ok v => Returned v
  | Threw e => Failed e
  end.

(** What [n] successive calls of [Innertube.create] return, the first one
    made in world [w], and the world they leave. *)
Fixpoint create_all {H : Host} (n : nat) (w : World H)
  : list (Outcome (Client H)) * World H :=
  match n with
  | O => ([], w)
  | S k =>
      let (r, w1) := Innertube_create H w in
      let (rs, w2) := create_all k w1 in
      (r :: rs, w2)
  end.

(** The outcomes [rs] taken in the order [p] (a list of positions). *)
Definition in_order {A : Type} (p : list nat) (rs : list A) : list A :=
  flat_map (fun i => match nth_error rs i with Some r => [r] | None => [] end) p.

(** The session variable, [y] before, once creation promises of outcomes
    [rs] have settled in that order and their calls have resumed: the
    client of the last fulfilled one, [y] when none was fulfilled. *)
Definition stored {C : Type} (y : option C) (rs : list (Outcome C)) : option C :=
  fold_left (fun y r => match r with Ok c => Some c | Threw _ => y end) rs y.

(** How a call ends when the creation call it made has outcome [r]: it
    returns the created client, or fails with the error of the creation. *)
Definition ends_with {H : Host} (r : Outcome (Client H)) : Task H :=
  match r with
  | Ok c => Returned (Some c)
  | Threw e => Failed e
  end.

(** Single-flight initialisation on host [H]: whenever [N >= 1] calls of
    [initYT] are all made from a state with no session before any of them
    is resumed, then, however far the run has gone since, exactly one
    creation call has been made, and once every call has run to its end
    all the calls ended the same way. *)
Definition SingleFlight (H : Host) : Prop :=
  forall (N : nat) (s : State H) (p : list nat) (rest : list Event) (x : Sys H),
    1 <= N ->
    yt s = None ->
    Permutation p (seq 0 N) ->
    run (map Enter p ++ rest) (pending N s) = Some x ->
    creations (log (st x)) = creations (log s) + 1 /\
    (forallb finished (tasks x) = true -> exists outcome, tasks x = repeat outcome N).

(* ===================================================================== *)
(** ** Footprint of a computation *)
(* ===================================================================== *)

(** [Kept a b]: a session that is set in [a] is the same session in [b]. *)
Definition Kept {C : Type} (a b : option C) : Prop :=
  forall c, a = Some c -> b = Some c.

(** [Emits Q Y R m]: running [m] appends to the log calls that all satisfy
    [Q], takes the session variable from a value to a [Y]-related one, and a
    value it returns satisfies [R]. *)
Definition Emits {H : Host} {A : Type} (Q : Call H -> Prop)
    (Y : option (Client H) -> option (Client H) -> Prop) (R : A -> Prop)
    (m : M H A) : Prop :=
  forall s, exists rest,
    log (snd (m s)) = (log s ++ rest)%list /\
    Forall Q rest /\
    Y (yt s) (yt (snd (m s))) /\
    forall a, fst (m s) = Ok a -> R a.

(** The same for a handler, whose answer always satisfies [R]. *)
Definition Handles {H : Host} (Q : Call H -> Prop)
    (Y : option (Client H) -> option (Client H) -> Prop)
    (R : Response (Stream H) -> Prop) (h : Handler H) : Prop :=
  forall s, exists rest,
    log (snd (h s)) = (log s ++ rest)%list /\
    Forall Q rest /\
    Y (yt s) (yt (snd (h s))) /\
    R (fst (h s)).

(** Calls to the filesystem. *)
Definition disk_call {H : Host} (c : Call H) : bool :=
  match c with
  | CallExistsSync _ | CallReaddirSync _ | CallRenameSync _ _ => true
  | _ => false
  end.

(** Calls to youtubei.js: creation of a client, metadata, deciphering. *)
Definition session_call {H : Host} (c : Call H) : bool :=
  match c with
  | CallCreate | CallGetBasicInfo _ _ | CallDecipher _ => true
  | _ => false
  end.

(** Number of tasks not started yet. *)
Definition waiting {H : Host} (l : list (Task H)) : nat :=
  length (filter (fun t => match t with Ready => true | _ => false end) l).

Definition is_ready {H : Host} (t : Task H) : nat :=
  match t with Ready => 1 | _ => 0 end.

(** What every step of a schedule of [n] calls keeps, [c0] being the number
    of creation calls logged before the first of them: creation calls and
    calls not started yet add up to at most [c0 + n]; no call has returned
    [null]. *)
Definition Inv {H : Host} (c0 n : nat) (x : Sys H) : Prop :=
  creations (log (st x)) + waiting (tasks x) <= c0 + n /\
  c0 <= creations (log (st x)) /\
  Forall (fun t => t <> Returned None) (tasks x) /\
  length (tasks x) = n.


(* ===================================================================== *)
(** * Properties *)
(* ===================================================================== *)

(** ** The sort and the format selector *)

Section SortFacts.
Variable A : Type.
Variable cmp : A -> A -> Z.

Lemma hd_insert (x : A) (l : list A) :
  hd_error (JS.insert cmp x l) =
  match hd_error l with
  | None => Some x
  | Some y => if (cmp x y <=? 0)%Z then Some x else Some y
  end.
Proof.
  destruct l as [|y t]; simpl; [reflexivity|].
  destruct (cmp x y <=? 0)%Z; reflexivity.
Qed.

Lemma insert_perm (x : A) (l : list A) : Permutation (x :: l) (JS.insert cmp x l).
Proof.
  induction l as [|y t IH]; simpl; [apply Permutation_refl|].
  destruct (cmp x y <=? 0)%Z; [apply Permutation_refl|].
  eapply perm_trans; [apply perm_swap|]. now apply perm_skip.
Qed.

(** The sort returns a rearrangement of its input. *)
Lemma sort_perm (l : list A) : Permutation l (JS.sort cmp l).
Proof.
  induction l as [|x t IH]; simpl; [constructor|].
  eapply perm_trans; [apply perm_skip, IH|]. apply insert_perm.
Qed.
End SortFacts.

Section SortByKey.
Variable A : Type.
Variable key : A -> Z.
Let cmp (a b : A) : Z := (key b - key a)%Z.

Lemma insert_sorted (x : A) (l : list A) :
  StronglySorted (fun a b => (key b <= key a)%Z) l ->
  StronglySorted (fun a b => (key b <= key a)%Z) (JS.insert cmp x l).
Proof.
  induction 1 as [|y t Hs IH Hall]; simpl.
  - repeat constructor.
  - unfold cmp at 1. destruct (Z.leb_spec (key y - key x) 0).
    + constructor; [now constructor|].
      constructor; [lia|].
      rewrite Forall_forall in *. intros z Hz. specialize (Hall z Hz). lia.
    + constructor; [exact IH|].
      rewrite Forall_forall in *. intros z Hz.
      apply (Permutation_in z (Permutation_sym (insert_perm cmp x t))) in Hz.
      destruct Hz as [<-|Hz]; [lia|now apply Hall].
Qed.

(** The result is in descending order of the key. *)
Lemma sort_sorted (l : list A) :
  StronglySorted (fun a b => (key b <= key a)%Z) (JS.sort cmp l).
Proof.
  induction l as [|x t IH]; simpl; [constructor|now apply insert_sorted].
Qed.

Lemma insert_stable (k : Z) (x : A) (l : list A) :
  StronglySorted (fun a b => (key b <= key a)%Z) l ->
  filter (fun a => (key a =? k)%Z) (JS.insert cmp x l) =
  filter (fun a => (key a =? k)%Z) (x :: l).
Proof.
  induction 1 as [|y t Hs IH Hall]; [reflexivity|].
  cbn [JS.insert]. unfold cmp at 1.
  destruct (Z.leb_spec (key y - key x) 0); [reflexivity|].
  cbn [filter] in *. rewrite IH.
  destruct (Z.eqb_spec (key x) k), (Z.eqb_spec (key y) k); try reflexivity; lia.
Qed.

(** The sort is stable: elements with the same key keep their order. *)
Lemma sort_stable (k : Z) (l : list A) :
  filter (fun a => (key a =? k)%Z) (JS.sort cmp l) =
  filter (fun a => (key a =? k)%Z) l.
Proof.
  induction l as [|x t IH]; [reflexivity|].
  cbn [JS.sort fold_right]. fold (JS.sort cmp t).
  rewrite insert_stable by apply sort_sorted.
  cbn [filter]. now rewrite IH.
Qed.
End SortByKey.

Section SelectorFacts.
Variable A : Type.
Variable mime : A -> option string.
Variable rate : A -> option Z.

Let audio := is_audio mime.
Let r (f : A) : Z := JS.or_zero (rate f).

(** Head of the sorted audio formats, by recursion on the input. *)
Lemma pick_audio_cons (a : A) (fs : list A) :
  pick_audio mime rate (a :: fs) =
  if audio a then
    match pick_audio mime rate fs with
    | None => Some a
    | Some y => if (r y <=? r a)%Z then Some a else Some y
    end
  else pick_audio mime rate fs.
Proof.
  unfold pick_audio, audio. cbn [filter].
  destruct (is_audio mime a); [|reflexivity].
  cbn [JS.sort fold_right]. rewrite hd_insert.
  fold (JS.sort (by_bitrate_desc rate) (filter (is_audio mime) fs)).
  destruct (hd_error _) as [y|]; [|reflexivity].
  unfold by_bitrate_desc, r.
  destruct (Z.leb_spec (JS.or_zero (rate y) - JS.or_zero (rate a)) 0),
           (Z.leb_spec (JS.or_zero (rate y)) (JS.or_zero (rate a)));
    try reflexivity; lia.
Qed.

(** The selected format splits the input: strictly smaller audio formats
    before it, none larger after it. *)
Lemma pick_audio_split (fs : list A) :
  match pick_audio mime rate fs with
  | None => forall f, In f fs -> audio f = false
  | Some x =>
      exists l1 l2, fs = (l1 ++ x :: l2)%list /\ audio x = true /\
        (forall y, In y l1 -> audio y = true -> (r y < r x)%Z) /\
        (forall y, In y l2 -> audio y = true -> (r y <= r x)%Z)
  end.
Proof.
  induction fs as [|a fs IH]; [intros f []|].
  rewrite pick_audio_cons. destruct (audio a) eqn:Ha.
  - destruct (pick_audio mime rate fs) as [y|].
    + destruct IH as (l1 & l2 & -> & Hy & Hlt & Hle).
      destruct (Z.leb_spec (r y) (r a)).
      * exists [], (l1 ++ y :: l2)%list. repeat split; trivial.
        { intros z []. }
        intros z Hz Haz. apply in_app_or in Hz.
        destruct Hz as [Hz|[<-|Hz]]; [specialize (Hlt z Hz Haz)| |specialize (Hle z Hz Haz)]; lia.
      * exists (a :: l1), l2. repeat split; trivial.
        intros z [<-|Hz] Haz; [lia|now apply Hlt].
    + exists [], fs. repeat split; trivial.
      * intros z [].
      * intros z Hz Haz. rewrite (IH z Hz) in Haz. discriminate.
  - destruct (pick_audio mime rate fs) as [y|].
    + destruct IH as (l1 & l2 & -> & Hy & Hlt & Hle).
      exists (a :: l1), l2. repeat split; trivial.
      intros z [<-|Hz] Haz; [congruence|now apply Hlt].
    + intros f [<-|Hf]; [exact Ha|now apply IH].
Qed.

Lemma split_first_best (l1 l2 : list A) (x : A) :
  audio x = true ->
  (forall y, In y l1 -> audio y = true -> (r y < r x)%Z) ->
  (forall y, In y l2 -> audio y = true -> (r y <= r x)%Z) ->
  FirstBest audio r (l1 ++ x :: l2) (length l1) x.
Proof.
  intros Hx Hlt Hle. repeat split; trivial.
  - rewrite nth_error_app2, Nat.sub_diag by lia. reflexivity.
  - destruct (Nat.lt_ge_cases j (length l1)) as [Hj|Hj].
    + rewrite nth_error_app1 in H by trivial.
      apply nth_error_In in H. specialize (Hlt y H H0). lia.
    + rewrite nth_error_app2 in H by trivial.
      destruct (j - length l1) as [|k]; cbn in H.
      * injection H as <-. lia.
      * apply nth_error_In in H. now apply Hle.
  - intros Heq. destruct (Nat.lt_ge_cases j (length l1)) as [Hj|Hj]; [|exact Hj].
    rewrite nth_error_app1 in H by trivial.
    apply nth_error_In in H. specialize (Hlt y H H0). lia.
Qed.

(** A format is selected exactly when some format is an audio format. *)
Lemma pick_audio_none (fs : list A) :
  pick_audio mime rate fs = None <-> forall f, In f fs -> audio f = false.
Proof.
  pose proof (pick_audio_split fs) as Hs.
  destruct (pick_audio mime rate fs) as [x|]; split; trivial; try discriminate.
  intros Hn. destruct Hs as (l1 & l2 & -> & Hx & _).
  rewrite Hn in Hx; [discriminate|]. apply in_or_app. right. now left.
Qed.

Lemma pick_audio_first_best (fs : list A) (x : A) :
  pick_audio mime rate fs = Some x -> exists i, FirstBest audio r fs i x.
Proof.
  intros Hp. pose proof (pick_audio_split fs) as Hs. rewrite Hp in Hs.
  destruct Hs as (l1 & l2 & -> & Hx & Hlt & Hle).
  exists (length l1). now apply split_first_best.
Qed.
End SelectorFacts.

Lemma nth_error_combine_seq {A} (l : list A) (a k : nat) :
  nth_error (combine (seq a (length l)) l) k = option_map (pair (a + k)) (nth_error l k).
Proof.
  revert a k. induction l as [|x l IH]; intros a [|k]; cbn; trivial.
  - now rewrite Nat.add_0_r.
  - rewrite IH. now rewrite Nat.add_succ_r.
Qed.

Lemma nth_error_enumerate {A} (l : list A) (k : nat) :
  nth_error (enumerate l) k = option_map (pair k) (nth_error l k).
Proof. apply (nth_error_combine_seq l 0 k). Qed.

Lemma map_snd_enumerate {A} (l : list A) : map snd (enumerate l) = l.
Proof.
  unfold enumerate. generalize 0. induction l as [|x l IH]; intros a; cbn; [reflexivity|].
  now rewrite IH.
Qed.

Lemma map_insert {A B} (f : A -> B) (cmp : B -> B -> Z) (x : A) (l : list A) :
  map f (JS.insert (fun a b => cmp (f a) (f b)) x l) = JS.insert cmp (f x) (map f l).
Proof.
  induction l as [|y t IH]; [reflexivity|]. cbn.
  destruct (cmp (f x) (f y) <=? 0)%Z; cbn; [reflexivity|now rewrite IH].
Qed.

Lemma map_sort {A B} (f : A -> B) (cmp : B -> B -> Z) (l : list A) :
  map f (JS.sort (fun a b => cmp (f a) (f b)) l) = JS.sort cmp (map f l).
Proof.
  induction l as [|x t IH]; [reflexivity|].
  cbn [JS.sort fold_right map].
  fold (JS.sort (fun a b => cmp (f a) (f b)) t). fold (JS.sort cmp (map f t)).
  now rewrite map_insert, IH.
Qed.

Lemma map_filter_comp {A B} (f : A -> B) (p : B -> bool) (l : list A) :
  map f (filter (fun a => p (f a)) l) = filter p (map f l).
Proof.
  induction l as [|x t IH]; [reflexivity|]. cbn.
  destruct (p (f x)); cbn; now rewrite IH.
Qed.

(** Selecting among the cells and then reading the cell is selecting among
    the values. *)
Lemma pick_audio_ref_value {A} (mime : A -> option string) (rate : A -> option Z)
    (fs : list A) :
  option_map snd (pick_audio_ref mime rate fs) = pick_audio mime rate fs.
Proof.
  unfold pick_audio_ref, pick_audio.
  rewrite <- (map_snd_enumerate fs) at 2.
  rewrite <- (map_filter_comp snd (is_audio mime)), <- map_sort.
  now destruct (JS.sort _ _).
Qed.

(** The cell selected is the first cell holding an audio format of maximal
    bitrate. *)
Lemma pick_audio_ref_first_best {A} (mime : A -> option string) (rate : A -> option Z)
    (fs : list A) (i : nat) (x : A) :
  pick_audio_ref mime rate fs = Some (i, x) ->
  FirstBest (is_audio mime) (fun f => JS.or_zero (rate f)) fs i x.
Proof.
  intros Hp. apply pick_audio_first_best in Hp. destruct Hp as (k & Hn & Hx & Hall).
  rewrite nth_error_enumerate in Hn.
  destruct (nth_error fs k) as [x'|] eqn:Hk; [|discriminate].
  cbn in Hn. injection Hn as -> ->.
  split; [exact Hk|]. split; [exact Hx|].
  intros j y Hj Hy. apply (Hall j (j, y)); [|exact Hy].
  rewrite nth_error_enumerate, Hj. reflexivity.
Qed.

Lemma pick_audio_identity {A} (mime : A -> option string) (rate : A -> option Z)
    (fs : list A) (x : A) :
  pick_audio mime rate fs = Some x ->
  exists i, pick_audio_ref mime rate fs = Some (i, x) /\
            FirstBest (is_audio mime) (fun f => JS.or_zero (rate f)) fs i x.
Proof.
  intros Hp. pose proof (pick_audio_ref_value mime rate fs) as Hv. rewrite Hp in Hv.
  destruct (pick_audio_ref mime rate fs) as [[i x']|] eqn:Hr; [|discriminate].
  cbn in Hv. injection Hv as ->. exists i. split; [reflexivity|].
  now apply pick_audio_ref_first_best.
Qed.

(** ** Strings *)

Lemma prefix_app (p s : string) :
  String.prefix p s = true <-> exists t, s = p ++ t.
Proof.
  revert s. induction p as [|c p IH]; intros s.
  - split; [intros _; now exists s|intros _; now destruct s].
  - destruct s as [|d s]; cbn.
    + split; [discriminate|intros (t & Ht); discriminate].
    + destruct (ascii_dec c d) as [->|Hne].
      * rewrite IH. split; intros (t & Ht); exists t; [now rewrite Ht|now injection Ht].
      * split; [discriminate|intros (t & Ht); injection Ht as Hc _; congruence].
Qed.

(** [hay.includes(needle)] holds exactly when [needle] occurs in [hay]. *)
Lemma includes_app (hay needle : string) :
  JS.includes hay needle = true <-> exists pre post, hay = pre ++ needle ++ post.
Proof.
  induction hay as [|c hay IH]; cbn [JS.includes]; rewrite orb_true_iff, prefix_app.
  - split.
    + intros [(t & Ht)|Hf]; [|discriminate]. now exists "", t.
    + intros (pre & post & Hp). left. destruct pre; [now exists post|discriminate].
  - rewrite IH. split.
    + intros [(t & Ht)|(pre & post & Hp)]; [now exists "", t|].
      exists (String c pre), post. cbn. now rewrite Hp.
    + intros (pre & post & Hp). destruct pre as [|d pre]; cbn in Hp.
      * left. now exists post.
      * right. injection Hp as _ Hp. now exists pre, post.
Qed.

Lemma length_append (s t : string) :
  String.length (s ++ t) = String.length s + String.length t.
Proof. induction s as [|c s IH]; cbn; [reflexivity|now rewrite IH]. Qed.

Lemma invalid_id_length (videoId : string) :
  invalid_id videoId = negb (String.length videoId =? 11)%nat.
Proof.
  unfold invalid_id. destruct (String.length videoId) as [|n]; reflexivity.
Qed.

Lemma invalid_id_true (videoId : string) :
  String.length videoId <> 11 -> invalid_id videoId = true.
Proof.
  intros Hn. rewrite invalid_id_length. now apply negb_true_iff, Nat.eqb_neq.
Qed.

Lemma invalid_id_false (videoId : string) :
  String.length videoId = 11 -> invalid_id videoId = false.
Proof.
  intros Hn. rewrite invalid_id_length, Hn. reflexivity.
Qed.

(** ** C1: the format selector *)

Lemma is_audio_HasAudio {A} (mime : A -> option string) (f : A) :
  is_audio mime f = true <-> HasAudio (mime f).
Proof.
  unfold is_audio, HasAudio. destruct (mime f) as [m|].
  - rewrite includes_app. split.
    + intros (pre & post & Hm). now exists m, pre, post.
    + intros (s & pre & post & Hs & Hm). injection Hs as <-. now exists pre, post.
  - split; [discriminate|intros (s & _ & _ & Hs & _); discriminate].
Qed.

Lemma is_audio_not_HasAudio {A} (mime : A -> option string) (f : A) :
  is_audio mime f = false <-> ~ HasAudio (mime f).
Proof.
  rewrite <- is_audio_HasAudio. destruct (is_audio mime f); split; congruence.
Qed.

Lemma or_zero_counts (o : option Z) (v : Z) : Counts o v -> JS.or_zero o = v.
Proof. intros [->|[-> ->]]; reflexivity. Qed.

Lemma or_zero_bitrate_of (o : option Z) : JS.or_zero o = bitrate_of o.
Proof. now destruct o. Qed.

Lemma pick_audio_selects {A} (mime : A -> option string) (rate : A -> option Z)
    (fs : list A) :
  Selects mime rate fs (pick_audio mime rate fs).
Proof.
  split; [|split].
  - rewrite pick_audio_none. split; intros Hn f Hf.
    + now apply is_audio_not_HasAudio, Hn.
    + now apply is_audio_not_HasAudio, Hn.
  - intros ->. reflexivity.
  - intros x Hp. destruct (pick_audio_identity _ _ _ Hp) as (i & Hr & Hn & Hx & Hall).
    exists i. repeat split; trivial.
    + now apply is_audio_HasAudio.
    + apply is_audio_HasAudio in H0. destruct (Hall j y H H0) as [Hle _].
      rewrite (or_zero_counts H1), (or_zero_counts H2) in Hle. exact Hle.
    + apply is_audio_HasAudio in H0. destruct (Hall j y H H0) as [_ Htie].
      rewrite (or_zero_counts H1), (or_zero_counts H2) in Htie. exact Htie.
Qed.

(** C1. For every array of formats, the selector of the Innertube variant and
    the selector of the play-dl variant return no candidate exactly when no
    format has a MIME type containing "audio" (so for the empty array), and
    otherwise return the cell that holds an audio format of maximal bitrate
    and comes first among those: every audio format of the array counts, for
    its bitrate when it has one and for 0 when it has none, for no more than
    the returned one, and one that counts for as much stands at no earlier
    position, so on a tie the first maximal element itself is returned. *)
Theorem format_selector_first_maximal_audio :
  forall (H : Host) (fs : list (IFormat H)) (gs : list PlayDl.Format),
    Selects (@Innertube.mime_type _) (@Innertube.bitrate _) fs
      (@innertube_select H
         {| Innertube.streaming_data :=
              Some {| Innertube.adaptive_formats := Some fs |} |}) /\
    Selects PlayDl.mimeType PlayDl.bitrate gs
      (playdl_select {| PlayDl.format := gs |}).
Proof.
  intros H fs gs. split; apply pick_audio_selects.
Qed.

(** The tie of the specification's example: two audio formats at 128, the
    first cell is returned. *)
Example selector_tie :
  pick_audio_ref PlayDl.mimeType PlayDl.bitrate
    [ {| PlayDl.mimeType := Some "audio/webm"; PlayDl.bitrate := Some 128%Z; PlayDl.url := None |};
      {| PlayDl.mimeType := Some "audio/webm"; PlayDl.bitrate := Some 128%Z; PlayDl.url := None |} ]
  = Some (0, {| PlayDl.mimeType := Some "audio/webm"; PlayDl.bitrate := Some 128%Z;
                PlayDl.url := None |}).
Proof. reflexivity. Qed.

(** A later format of higher bitrate is preferred to an earlier one, a
    format without bitrate counts for 0, a video format is never taken. *)
Example selector_prefers_higher_bitrate :
  pick_audio_ref PlayDl.mimeType PlayDl.bitrate
    [ {| PlayDl.mimeType := Some "audio/mp4"; PlayDl.bitrate := None; PlayDl.url := Some "U0" |};
      {| PlayDl.mimeType := Some "audio/mp4"; PlayDl.bitrate := Some 128%Z; PlayDl.url := Some "U1" |};
      {| PlayDl.mimeType := Some "video/mp4"; PlayDl.bitrate := Some 1000%Z; PlayDl.url := Some "V" |};
      {| PlayDl.mimeType := Some "audio/webm"; PlayDl.bitrate := Some 160%Z; PlayDl.url := Some "U3" |};
      {| PlayDl.mimeType := Some "audio/webm"; PlayDl.bitrate := Some 160%Z; PlayDl.url := Some "U4" |} ]
  = Some (3, {| PlayDl.mimeType := Some "audio/webm"; PlayDl.bitrate := Some 160%Z;
                PlayDl.url := Some "U3" |}).
Proof. reflexivity. Qed.

(** The specification's first scenario: the 160 kbit/s audio format wins
    over the video format and the 128 kbit/s audio format. *)
Example selector_scenario :
  option_map PlayDl.url
    (playdl_select
       {| PlayDl.format :=
            [ {| PlayDl.mimeType := Some "video/mp4"; PlayDl.bitrate := Some 1000%Z; PlayDl.url := None |};
              {| PlayDl.mimeType := Some "audio/webm"; PlayDl.bitrate := Some 160%Z; PlayDl.url := Some "U1" |};
              {| PlayDl.mimeType := Some "audio/mp4"; PlayDl.bitrate := Some 128%Z; PlayDl.url := Some "U2" |} ] |})
  = Some (Some "U1").
Proof. reflexivity. Qed.

(** ** C8: mapping of the search results *)




(** Every object the search handler answers with comes from a video item. *)
Lemma videos_mapped (items : list Ytsr.Item) (r : SearchResult.t) :
  In r (videos items) <->
  exists v, In v items /\ Ytsr.type v = "video" /\ r = toSearchResult v.
Proof.
  unfold videos. rewrite in_map_iff. split.
  - intros (v & <- & Hv). apply filter_In in Hv. destruct Hv as [Hv Ht].
    exists v. repeat split; trivial. now apply String.eqb_eq.
  - intros (v & Hv & Ht & ->). exists v. split; trivial.
    apply filter_In. split; trivial. now apply String.eqb_eq.
Qed.

Example search_demo :
  fst (search (Some "song") (Demo.fresh [] [] "mp3" []))
  = Json 200 (ItemsBody
      [ {| SearchResult.id := "dQw4w9WgXcQ"; SearchResult.title := "A song";
           SearchResult.artist := "A singer";
           SearchResult.thumbnail := "https://img.youtube.com/vi/dQw4w9WgXcQ/hqdefault.jpg";
           SearchResult.duration := Some "3:33"; SearchResult.authorId := "UC123" |} ]).
Proof. reflexivity. Qed.

(** ** C3: ids that are not 11 characters long *)

(** C3, amended. For every id whose length is not 11 and in every state, the
    handlers of /api/audio-url and /api/stream of the three variants and the
    handlers of /api/download of the yt-dlp and play-dl variants answer 400
    "Invalid video ID" without any call to the host and without touching the
    session; the /api/download handler of the Innertube variant checks
    nothing: it answers with a redirect to /api/stream/<id>, also without any
    call to the host. *)
Theorem invalid_id_rejected_before_backend :
  forall (H : Host) (videoId : string) (s : State H),
    String.length videoId <> 11 ->
    ytdlp_audio_url videoId s = (Json 400 (ErrorBody "Invalid video ID"), s) /\
    ytdlp_stream videoId s = (Send 400 "Invalid video ID", s) /\
    ytdlp_download videoId s = (Send 400 "Invalid video ID", s) /\
    playdl_audio_url videoId s = (Json 400 (ErrorBody "Invalid video ID"), s) /\
    playdl_stream videoId s = (Send 400 "Invalid video ID", s) /\
    playdl_download videoId s = (Send 400 "Invalid video ID", s) /\
    innertube_audio_url videoId s = (Json 400 (ErrorBody "Invalid video ID"), s) /\
    innertube_stream videoId s = (Send 400 "Invalid video ID", s) /\
    innertube_download videoId s = (Redirect ("/api/stream/" ++ videoId), s).
Proof.
  intros H videoId s Hlen. apply invalid_id_true in Hlen.
  unfold ytdlp_audio_url, ytdlp_stream, ytdlp_download, playdl_audio_url,
    playdl_stream, playdl_download, innertube_audio_url, innertube_stream,
    innertube_download.
  rewrite Hlen. repeat split.
Qed.

Lemma invalid_id_rejected_before_backend_witness :
  String.length "short" <> 11 /\
  ytdlp_download "short" (Demo.fresh [] [] "mp3" []) =
    (Send 400 "Invalid video ID", Demo.fresh [] [] "mp3" []) /\
  innertube_download "short" (Demo.fresh [] [] "mp3" []) =
    (Redirect "/api/stream/short", Demo.fresh [] [] "mp3" []).
Proof.
  assert (Hlen : String.length "short" <> 11) by (cbn; lia).
  pose proof (@invalid_id_rejected_before_backend _ "short" (Demo.fresh [] [] "mp3" []) Hlen)
    as Hw.
  split; [exact Hlen|]. split; [apply Hw|]. apply Hw.
Defined.

(** The handlers that do check the id. *)
Lemma checking_handlers_reject (H : Host) :
  Rejects400 (@ytdlp_audio_url H) /\ Rejects400 (@ytdlp_stream H) /\
  Rejects400 (@ytdlp_download H) /\ Rejects400 (@playdl_audio_url H) /\
  Rejects400 (@playdl_stream H) /\ Rejects400 (@playdl_download H) /\
  Rejects400 (@innertube_audio_url H) /\ Rejects400 (@innertube_stream H).
Proof.
  unfold Rejects400, ytdlp_audio_url, ytdlp_stream, ytdlp_download, playdl_audio_url,
    playdl_stream, playdl_download, innertube_audio_url, innertube_stream.
  repeat split; rewrite (invalid_id_true _ H0); reflexivity.
Qed.

(** C3 as stated fails: the /api/download handler of the Innertube variant
    answers the 5-character id "short" with a 302 redirect, not with 400. *)
Lemma innertube_download_does_not_reject :
  ~ Rejects400 (@innertube_download (Demo.host "mp3" [])).
Proof.
  intros Hr.
  destruct (Hr "short" (Demo.fresh [] [] "mp3" [])) as [Hs _]; [cbn; lia|].
  cbn in Hs. discriminate.
Qed.

(** ** C5, C6, C10: the download handler of the yt-dlp variant *)

Lemma downloads_app {H : Host} (l l' : list (Call H)) :
  downloads (l ++ l') = downloads l + downloads l'.
Proof. unfold downloads. now rewrite filter_app, length_app. Qed.

Lemma downloads_exists {H : Host} (p : string) (n : nat) :
  downloads (repeat (@CallExistsSync H p) n) = 0.
Proof. induction n as [|n IH]; [reflexivity|exact IH]. Qed.

(** A cache hit: one [existsSync], then the file is sent. *)
Lemma download_hit (H : Host) (videoId : string) (s : State H) :
  String.length videoId = 11 ->
  existsSync H (canonical H videoId) (world s) = true ->
  ytdlp_download videoId s =
    (SendFile (canonical H videoId), record (CallExistsSync (canonical H videoId)) s).
Proof.
  intros Hlen Hhit. unfold ytdlp_download. rewrite (invalid_id_false _ Hlen).
  fold (canonical H videoId).
  unfold try_catch, bind, query. cbn. rewrite Hhit. reflexivity.
Qed.

Lemma serve_hits (H : Host) (videoId : string) (n : nat) (s : State H) :
  String.length videoId = 11 ->
  existsSync H (canonical H videoId) (world s) = true ->
  serve (ytdlp_download videoId) n s =
    (repeat (SendFile (canonical H videoId)) n,
     {| world := world s; yt := yt s;
        log := log s ++ repeat (CallExistsSync (canonical H videoId)) n |}).
Proof.
  intros Hlen. revert s. induction n as [|n IH]; intros s Hhit.
  - cbn. rewrite app_nil_r. now destruct s.
  - cbn [serve]. rewrite (download_hit _ _ Hlen Hhit).
    rewrite IH by exact Hhit. cbn. now rewrite <- app_assoc.
Qed.

(** C5. When the canonical file of an 11-character id exists, the download
    handler answers with that file after a single [existsSync] and nothing
    else: the download capability is not called and the world is unchanged.
    So any number of requests for that id, served one after the other, all
    get the same path, and the number of download calls stays what it was. *)
Theorem download_cached_is_idempotent :
  forall (H : Host) (videoId : string) (s : State H) (n : nat),
    String.length videoId = 11 ->
    existsSync H (canonical H videoId) (world s) = true ->
    ytdlp_download videoId s =
      (SendFile (canonical H videoId),
       {| world := world s; yt := yt s;
          log := log s ++ [CallExistsSync (canonical H videoId)] |}) /\
    fst (serve (ytdlp_download videoId) n s) = repeat (SendFile (canonical H videoId)) n /\
    world (snd (serve (ytdlp_download videoId) n s)) = world s /\
    downloads (log (snd (serve (ytdlp_download videoId) n s))) = downloads (log s).
Proof.
  intros H videoId s n Hlen Hhit.
  rewrite (serve_hits _ n _ Hlen Hhit), (download_hit _ _ Hlen Hhit).
  cbn [fst snd world log]. repeat split.
  rewrite downloads_app, downloads_exists. lia.
Qed.

Lemma download_cached_is_idempotent_witness :
  fst (serve (ytdlp_download "dQw4w9WgXcQ") 5
         (Demo.fresh ["/srv/app/downloads/dQw4w9WgXcQ.mp3"] [] "mp3" []))
    = repeat (SendFile "/srv/app/downloads/dQw4w9WgXcQ.mp3") 5 /\
  downloads (log (snd (serve (ytdlp_download "dQw4w9WgXcQ") 5
         (Demo.fresh ["/srv/app/downloads/dQw4w9WgXcQ.mp3"] [] "mp3" [])))) = 0.
Proof.
  destruct (@download_cached_is_idempotent (Demo.host "mp3" []) "dQw4w9WgXcQ"
              (Demo.fresh ["/srv/app/downloads/dQw4w9WgXcQ.mp3"] [] "mp3" []) 5
              eq_refl eq_refl) as (_ & Hr & _ & Hd).
  split; [exact Hr|exact Hd].
Defined.

(** Five requests for an id that is not cached yet, on a host whose
    downloader saves an mp3 file: one download, then four cache hits. *)
Example download_once_demo :
  let s := snd (serve (ytdlp_download "dQw4w9WgXcQ") 5 (Demo.fresh [] [] "mp3" [])) in
  downloads (log s) = 1 /\ Demo.disk (world s) = ["/srv/app/downloads/dQw4w9WgXcQ.mp3"].
Proof. vm_compute. split; reflexivity. Qed.

Lemma prefix_nonempty (p f : string) :
  String.prefix p f = true -> p <> "" -> f <> "".
Proof.
  intros Hp Hne ->. destruct p; [congruence|discriminate].
Qed.

Lemma find_truthy (videoId : string) (files : list string) (f : string) :
  String.length videoId = 11 ->
  JS.find (fun f => JS.startsWith f videoId) files = Some f ->
  JS.truthy (Some f) = true /\ JS.or_else (Some f) "" = f.
Proof.
  intros Hlen Hf. apply find_some in Hf. destruct Hf as [_ Hp].
  assert (f <> "") as Hne.
  { apply (@prefix_nonempty videoId f Hp). intros ->. discriminate. }
  destruct f; [congruence|]. split; reflexivity.
Qed.

(** The whole miss path, branch by branch. *)
Lemma download_miss (H : Host) (videoId : string) (s : State H)
    (r : string) (w1 : World H) (files : list string) :
  String.length videoId = 11 ->
  existsSync H (canonical H videoId) (world s) = false ->
  let out := canonical H videoId in
  let url := watch_url videoId in
  let opts := download_options (JS.replace out ".mp3" ".%(ext)s") in
  ytdlp H url opts (world s) = (Ok r, w1) ->
  readdirSync H (DOWNLOADS_DIR H) w1 = Ok files ->
  let base := ((log s ++ [CallExistsSync out])
                 ++ [CallYtdlp url opts; CallReaddirSync (DOWNLOADS_DIR H)])%list in
  ytdlp_download videoId s =
  match List.find (fun f => String.prefix videoId f) files with
  | None => (Send 500 "Download failed", {| world := w1; yt := yt s; log := base |})
  | Some f =>
      let actual := path_join H (DOWNLOADS_DIR H) f in
      if actual =? out then (SendFile out, {| world := w1; yt := yt s; log := base |})
      else if existsSync H actual w1 then
        match renameSync H actual out w1 with
        | (Ok _, w2) =>
            (SendFile out,
             {| world := w2; yt := yt s;
                log := base ++ [CallExistsSync actual; CallRenameSync actual out] |})
        | (Threw _, w2) =>
            (Send 500 "Download error",
             {| world := w2; yt := yt s;
                log := base ++ [CallExistsSync actual; CallRenameSync actual out] |})
        end
      else (SendFile out,
            {| world := w1; yt := yt s; log := base ++ [CallExistsSync actual] |})
  end.
Proof.
  intros Hlen Hmiss out url opts Hdl Hls base.
  subst out url opts base. unfold canonical in *.
  unfold ytdlp_download. rewrite (invalid_id_false _ Hlen).
  unfold try_catch, bind, query, call, ret, record. cbn [world yt log].
  rewrite Hmiss. cbn [world yt log]. rewrite Hdl. cbn [world yt log]. rewrite Hls.
  change (JS.find (fun f => JS.startsWith f videoId) files)
    with (List.find (fun f => String.prefix videoId f) files).
  destruct (List.find (fun f => String.prefix videoId f) files) as [f|] eqn:Hfind.
  - destruct (find_truthy videoId files Hlen Hfind) as [Ht Ho].
    rewrite Ht, Ho. cbn zeta.
    destruct (path_join H (DOWNLOADS_DIR H) f =?
              path_join H (DOWNLOADS_DIR H) (videoId ++ ".mp3")) eqn:Hsame; cbn [negb].
    + now rewrite <- !app_assoc.
    + cbn [world yt log].
      destruct (existsSync H (path_join H (DOWNLOADS_DIR H) f) w1) eqn:Hthere.
      * cbn [world yt log].
        destruct (renameSync H _ _ w1) as [[[]|e] w2]; now rewrite <- !app_assoc.
      * now rewrite <- !app_assoc.
  - cbn [JS.truthy]. now rewrite <- !app_assoc.
Qed.

(** C6. On a cache miss, when the download call and the directory listing
    return, the handler has called the download capability once and then
    listed the downloads directory; it takes the first listed name that
    starts with the id.  When there is none, it answers 500 "Download
    failed".  When the file found is the canonical file, it is sent as it
    is.  When its path differs from the canonical path (the file exists,
    since it was listed, and the rename succeeds), it is renamed to the
    canonical path and the canonical path is sent. *)
Theorem download_miss_locates_and_renames :
  forall (H : Host) (videoId : string) (s : State H)
         (r : string) (w1 : World H) (files : list string),
    String.length videoId = 11 ->
    existsSync H (canonical H videoId) (world s) = false ->
    let out := canonical H videoId in
    let url := watch_url videoId in
    let opts := download_options (JS.replace out ".mp3" ".%(ext)s") in
    ytdlp H url opts (world s) = (Ok r, w1) ->
    readdirSync H (DOWNLOADS_DIR H) w1 = Ok files ->
    let base := ((log s ++ [CallExistsSync out])
                   ++ [CallYtdlp url opts; CallReaddirSync (DOWNLOADS_DIR H)])%list in
    match List.find (fun f => String.prefix videoId f) files with
    | None =>
        ytdlp_download videoId s =
          (Send 500 "Download failed", {| world := w1; yt := yt s; log := base |})
    | Some f =>
        let actual := path_join H (DOWNLOADS_DIR H) f in
        if actual =? out then
          ytdlp_download videoId s =
            (SendFile out, {| world := w1; yt := yt s; log := base |})
        else
          existsSync H actual w1 = true ->
          forall w2, renameSync H actual out w1 = (Ok tt, w2) ->
          ytdlp_download videoId s =
            (SendFile out,
             {| world := w2; yt := yt s;
                log := base ++ [CallExistsSync actual; CallRenameSync actual out] |})
    end.
Proof.
  intros H videoId s r w1 files Hlen Hmiss out url opts Hdl Hls base.
  rewrite (download_miss videoId s Hlen Hmiss Hdl Hls).
  fold out url opts base.
  destruct (List.find (fun f => String.prefix videoId f) files) as [f|]; [|reflexivity].
  cbn zeta. destruct (path_join H (DOWNLOADS_DIR H) f =? out); [reflexivity|].
  intros Hthere w2 Hren. now rewrite Hthere, Hren.
Qed.

Lemma download_miss_locates_and_renames_witness :
  ytdlp_download "dQw4w9WgXcQ" (Demo.fresh [] [] "m4a" []) =
    (SendFile "/srv/app/downloads/dQw4w9WgXcQ.mp3",
     Demo.state "m4a" [] ["/srv/app/downloads/dQw4w9WgXcQ.mp3"] [] None
       [ CallExistsSync "/srv/app/downloads/dQw4w9WgXcQ.mp3";
         CallYtdlp "https://www.youtube.com/watch?v=dQw4w9WgXcQ"
           (download_options "/srv/app/downloads/dQw4w9WgXcQ.%(ext)s");
         CallReaddirSync "/srv/app/downloads";
         CallExistsSync "/srv/app/downloads/dQw4w9WgXcQ.m4a";
         CallRenameSync "/srv/app/downloads/dQw4w9WgXcQ.m4a"
                        "/srv/app/downloads/dQw4w9WgXcQ.mp3" ]).
Proof.
  exact (@download_miss_locates_and_renames (Demo.host "m4a" []) "dQw4w9WgXcQ"
           (Demo.fresh [] [] "m4a" []) ""
           {| Demo.disk := ["/srv/app/downloads/dQw4w9WgXcQ.m4a"]; Demo.supply := [] |}
           ["dQw4w9WgXcQ.m4a"]
           eq_refl eq_refl eq_refl eq_refl eq_refl
           {| Demo.disk := ["/srv/app/downloads/dQw4w9WgXcQ.mp3"]; Demo.supply := [] |}
           eq_refl).
Defined.

Section LogGrowth.
Variable H : Host.

Lemma grows_ret {A} (a : A) : Grows (@ret H A a).
Proof. intros s. exists []. cbn. now rewrite app_nil_r. Qed.

Lemma grows_throw {A} (msg : string) : Grows (@throw H A msg).
Proof. intros s. exists []. cbn. now rewrite app_nil_r. Qed.

Lemma grows_call {A} (c : Call H) (op : World H -> Outcome A * World H) :
  Grows (call c op).
Proof. intros s. exists [c]. unfold call. now destruct (op (world s)). Qed.

Lemma grows_query {A} (c : Call H) (op : World H -> A) : Grows (query c op).
Proof. intros s. now exists [c]. Qed.

Lemma grows_invoke {A} (c : Call H) (r : Outcome A) : Grows (invoke c r).
Proof. intros s. now exists [c]. Qed.

Lemma grows_bind {A B} (m : M H A) (k : A -> M H B) :
  Grows m -> (forall a, Grows (k a)) -> Grows (bind m k).
Proof.
  intros Hm Hk s. unfold bind. destruct (Hm s) as (r1 & H1).
  destruct (m s) as [[a|e] s1]; cbn [snd] in *.
  - destruct (Hk a s1) as (r2 & H2). exists (r1 ++ r2)%list.
    now rewrite H2, H1, app_assoc.
  - now exists r1.
Qed.

Lemma grows_if {A} (b : bool) (m1 m2 : M H A) :
  Grows m1 -> Grows m2 -> Grows (if b then m1 else m2).
Proof. now destruct b. Qed.

End LogGrowth.

(** Whatever the host answers, the first call of the download handler for an
    11-character id is [existsSync] on the joined path. *)
Lemma download_first_call (H : Host) (videoId : string) (s : State H) :
  String.length videoId = 11 ->
  exists rest,
    log (snd (ytdlp_download videoId s)) =
    (log s ++ CallExistsSync (path_join H (DOWNLOADS_DIR H) (videoId ++ ".mp3")) :: rest)%list.
Proof.
  intros Hlen. unfold ytdlp_download. rewrite (invalid_id_false _ Hlen).
  match goal with
  | |- context [try_catch (bind (query ?c ?op) ?k) ?h s] =>
      assert (Hk : forall a, Grows (k a))
        by (intros a; cbv beta;
            repeat first
              [ apply grows_ret | apply grows_throw | apply grows_call
              | apply grows_query | apply grows_invoke | apply grows_if
              | apply grows_bind; [|intros ?] ]);
      destruct (Hk (op (world s)) (record c s)) as (rest & Hrest);
      exists rest;
      replace (snd (try_catch (bind (query c op) k) h s))
        with (snd (k (op (world s)) (record c s)))
  end.
  - rewrite Hrest. cbn [record log]. now rewrite <- app_assoc.
  - unfold try_catch, bind, query. cbn [fst snd].
    now destruct (_ (record _ s)) as [[a|e] s'].
Qed.

(** C10. The check of the id looks at its length only: every 11-character
    string passes, whatever its characters.  For such an id the download
    handler joins [videoId ++ ".mp3"] to the downloads directory as it is and
    gives the result to the filesystem ([existsSync] is its first call); and
    after a download, the file it looks for is a listed name that has the id,
    as it is, for prefix: the answer is "Download failed" exactly when no
    listed name starts with the id. *)
Theorem length_only_validation_reaches_filesystem :
  forall (H : Host) (videoId : string) (s : State H),
    String.length videoId = 11 ->
    invalid_id videoId = false /\
    (exists rest,
       log (snd (ytdlp_download videoId s)) =
       (log s ++ CallExistsSync (path_join H (DOWNLOADS_DIR H) (videoId ++ ".mp3"))
              :: rest)%list) /\
    (forall r w1 files,
       existsSync H (canonical H videoId) (world s) = false ->
       ytdlp H (watch_url videoId)
         (download_options (JS.replace (canonical H videoId) ".mp3" ".%(ext)s"))
         (world s) = (Ok r, w1) ->
       readdirSync H (DOWNLOADS_DIR H) w1 = Ok files ->
       (fst (ytdlp_download videoId s) = Send 500 "Download failed" <->
        forall f, In f files -> String.prefix videoId f = false)).
Proof.
  intros H videoId s Hlen. split; [now apply invalid_id_false|].
  split; [now apply download_first_call|].
  intros r w1 files Hmiss Hdl Hls.
  rewrite (download_miss videoId s Hlen Hmiss Hdl Hls).
  destruct (List.find (fun f => String.prefix videoId f) files) as [f|] eqn:Hfind.
  - apply find_some in Hfind. destruct Hfind as [Hin Hp]. split.
    + cbn zeta. intros Hr. exfalso.
      destruct (_ =? _) in Hr; [discriminate|].
      destruct (existsSync H _ w1) in Hr; [|discriminate].
      destruct (renameSync H _ _ w1) as [[[]|e] w2] in Hr; discriminate.
    + intros Hn. rewrite (Hn f Hin) in Hp. discriminate.
  - split; [|reflexivity]. intros _ f Hin.
    exact (find_none _ _ Hfind f Hin).
Qed.

Lemma length_only_validation_reaches_filesystem_witness :
  String.length "../../etc/x" = 11 /\
  invalid_id "../../etc/x" = false /\
  exists rest,
    log (snd (ytdlp_download "../../etc/x" (Demo.fresh ["/srv/etc/x.mp3"] [] "mp3" [])))
    = CallExistsSync "/srv/etc/x.mp3" :: rest.
Proof.
  destruct (@length_only_validation_reaches_filesystem (Demo.host "mp3" [])
              "../../etc/x" (Demo.fresh ["/srv/etc/x.mp3"] [] "mp3" []) eq_refl)
    as (Hvalid & Hfirst & _).
  split; [reflexivity|]. split; [exact Hvalid|exact Hfirst].
Defined.

(** An id made of dots and slashes: the file served lies outside the
    downloads directory. *)
Example download_traversal_demo :
  fst (ytdlp_download "../../etc/x" (Demo.fresh ["/srv/etc/x.mp3"] [] "mp3" []))
  = SendFile "/srv/etc/x.mp3" /\
  DOWNLOADS_DIR (Demo.host "mp3" []) = "/srv/app/downloads".
Proof. split; reflexivity. Qed.

(** ** C9: loading the Innertube variant *)

(** Evaluation stops at the first statement that throws: what follows it in
    the module is never evaluated. *)
Lemma eval_stops (m1 m2 : list Loader.Stmt) (s : Loader.Stmt) (l : Loader.Loaded) :
  Loader.thrown (Loader.eval m1 l) = None ->
  Loader.thrown (Loader.exec s (Loader.eval m1 l)) <> None ->
  Loader.eval (m1 ++ s :: m2) l = Loader.exec s (Loader.eval m1 l).
Proof.
  revert l. induction m1 as [|a m1 IH]; intros l Hok Hthrow; cbn in *.
  - destruct (Loader.thrown (Loader.exec s l)); [reflexivity|congruence].
  - destruct (Loader.thrown (Loader.exec a l)) eqn:Ha; [congruence|].
    now apply IH.
Qed.

(** A module that reads, at its top level, a name that is neither bound by
    Node nor declared before throws. *)
Lemma unbound_read_throws (x : string) (reads : list string) (e : Loader.Effect)
    (l : Loader.Loaded) :
  Loader.unresolved reads (Loader.scope l) = Some x ->
  Loader.exec (Loader.Expression reads e) l = Loader.fail x l.
Proof. intros Hu. cbn. now rewrite Hu. Qed.

(** C9. In the module of the Innertube variant, [app] and [PORT] are read
    (by [app.use], by the route registrations, by [app.listen]) and declared
    nowhere; evaluating the module throws a ReferenceError on [app] at its
    first [app.use], before any middleware or route is registered and
    without the server listening. *)
Theorem innertube_module_throws_at_load :
  ~ In "app" (Loader.declared Loader.innertube_module) /\
  ~ In "PORT" (Loader.declared Loader.innertube_module) /\
  ~ In "app" Loader.node_scope /\
  ~ In "PORT" Loader.node_scope /\
  In "app" (Loader.referenced Loader.innertube_module) /\
  In "PORT" (Loader.referenced Loader.innertube_module) /\
  Loader.thrown (Loader.load Loader.innertube_module) = Some "app" /\
  Loader.middleware (Loader.load Loader.innertube_module) = 0 /\
  Loader.routes (Loader.load Loader.innertube_module) = [] /\
  Loader.listening (Loader.load Loader.innertube_module) = false.
Proof.
  repeat split; try reflexivity;
    try (intros Hin; cbn in Hin;
         repeat (destruct Hin as [Hin|Hin]; [discriminate|]); exact Hin).
  - cbn. tauto.
  - cbn. tauto.
Qed.

(** The other two modules load: five routes each, and the server listens. *)
Example other_modules_load :
  Loader.thrown (Loader.load Loader.ytdlp_module) = None /\
  Loader.thrown (Loader.load Loader.playdl_module) = None /\
  length (Loader.routes (Loader.load Loader.ytdlp_module)) = 5 /\
  length (Loader.routes (Loader.load Loader.playdl_module)) = 5 /\
  Loader.listening (Loader.load Loader.ytdlp_module) = true /\
  Loader.listening (Loader.load Loader.playdl_module) = true.
Proof. repeat split. Qed.

(** ** C7, C4: the session of the Innertube variant, one request at a time *)

Section Session.
Variable H : Host.

Lemma initYT_ready (s : State H) (c : Client H) :
  yt s = Some c -> initYT s = (Ok (Some c), s).
Proof.
  intros Hy. unfold initYT, bind, get_yt, ret. rewrite Hy. cbn. now rewrite Hy.
Qed.

Lemma initYT_created (s : State H) (c : Client H) (w : World H) :
  yt s = None -> Innertube_create H (world s) = (Ok c, w) ->
  initYT s = (Ok (Some c), {| world := w; yt := Some c; log := log s ++ [CallCreate] |}).
Proof.
  intros Hy Hc. unfold initYT, bind, get_yt, set_yt, call. rewrite Hy, Hc. reflexivity.
Qed.

Lemma initYT_failed (s : State H) (e : string) (w : World H) :
  yt s = None -> Innertube_create H (world s) = (Threw e, w) ->
  initYT s = (Threw e, {| world := w; yt := None; log := log s ++ [CallCreate] |}).
Proof.
  intros Hy Hc. unfold initYT, bind, get_yt, set_yt, call. rewrite Hy, Hc.
  cbn. now rewrite Hy.
Qed.

(** [initYT] never returns [null]. *)
Lemma initYT_returns_session (s s' : State H) (v : option (Client H)) :
  initYT s = (Ok v, s') -> v <> None /\ yt s' = v.
Proof.
  destruct (yt s) as [c|] eqn:Hy.
  - rewrite (initYT_ready _ Hy). intros [= <- <-]. split; [discriminate|exact Hy].
  - destruct (Innertube_create H (world s)) as [[c|e] w] eqn:Hc.
    + rewrite (initYT_created _ Hy Hc). intros [= <- <-]. split; [discriminate|reflexivity].
    + rewrite (initYT_failed _ Hy Hc). discriminate.
Qed.

(** What the two resolving handlers answer once the session is ready and the
    metadata has been fetched. *)
Lemma audio_url_resolved (videoId : string) (s : State H) (c : Client H)
    (info : IInfo H) (w : World H) :
  String.length videoId = 11 -> yt s = Some c ->
  getBasicInfo H c videoId (world s) = (Ok info, w) ->
  let s1 := {| world := w; yt := Some c; log := log s ++ [CallGetBasicInfo c videoId] |} in
  innertube_audio_url videoId s =
  match innertube_select info with
  | None => (Json 500 (ErrorBody "No audio format found"), s1)
  | Some f =>
      match Innertube.decipher f with
      | Some d =>
          (match d (session_player H c) with
           | Ok u => Json 200 (UrlBody u videoId)
           | Threw e => Json 500 (ErrorBody e)
           end,
           record (CallDecipher (session_player H c)) s1)
      | None =>
          if JS.truthy (Innertube.url f)
          then (Json 200 (UrlBody (JS.or_else (Innertube.url f) "") videoId), s1)
          else (Json 500 (ErrorBody "No audio format found"), s1)
      end
  end.
Proof.
  intros Hlen Hy Hinfo s1. subst s1.
  unfold innertube_audio_url. rewrite (invalid_id_false _ Hlen).
  unfold try_catch, bind. rewrite (initYT_ready _ Hy). cbn [deref ret].
  unfold call. rewrite Hinfo, Hy.
  destruct (innertube_select info) as [f|]; cbn [opt_chain]; [|reflexivity].
  destruct (Innertube.decipher f) as [d|].
  - unfold invoke, ret. now destruct (d (session_player H c)).
  - now destruct (JS.truthy (Innertube.url f)).
Qed.

Lemma stream_resolved (videoId : string) (s : State H) (c : Client H)
    (info : IInfo H) (w : World H) :
  String.length videoId = 11 -> yt s = Some c ->
  getBasicInfo H c videoId (world s) = (Ok info, w) ->
  let s1 := {| world := w; yt := Some c; log := log s ++ [CallGetBasicInfo c videoId] |} in
  innertube_stream videoId s =
  match innertube_select info with
  | None => (Send 500 "Stream error: No audio format available", s1)
  | Some f =>
      match Innertube.decipher f with
      | Some d =>
          (match d (session_player H c) with
           | Ok u => Redirect u
           | Threw e => Send 500 ("Stream error: " ++ e)
           end,
           record (CallDecipher (session_player H c)) s1)
      | None =>
          if JS.truthy (Innertube.url f)
          then (Redirect (JS.or_else (Innertube.url f) ""), s1)
          else (Send 500 "Stream error: Cannot get audio URL", s1)
      end
  end.
Proof.
  intros Hlen Hy Hinfo s1. subst s1.
  unfold innertube_stream. rewrite (invalid_id_false _ Hlen).
  unfold try_catch, bind. rewrite (initYT_ready _ Hy). cbn [deref ret].
  unfold call. rewrite Hinfo, Hy.
  destruct (innertube_select info) as [f|]; [|reflexivity].
  destruct (Innertube.decipher f) as [d|].
  - unfold invoke, ret. now destruct (d (session_player H c)).
  - now destruct (JS.truthy (Innertube.url f)).
Qed.

(** The decipher function is applied to the player of the client that
    fetched the metadata. *)
Lemma audio_url_deciphers_with_session (videoId : string) (s : State H) (c : Client H)
    (info : IInfo H) (w : World H) (f : IFormat H)
    (d : Player H -> Outcome string) (u : string) :
  String.length videoId = 11 -> yt s = Some c ->
  getBasicInfo H c videoId (world s) = (Ok info, w) ->
  innertube_select info = Some f -> Innertube.decipher f = Some d ->
  d (session_player H c) = Ok u ->
  innertube_audio_url videoId s =
    (Json 200 (UrlBody u videoId),
     {| world := w; yt := Some c;
        log := log s ++ [CallGetBasicInfo c videoId; CallDecipher (session_player H c)] |}).
Proof.
  intros Hlen Hy Hinfo Hsel Hd Hu.
  rewrite (audio_url_resolved _ _ Hlen Hy Hinfo), Hsel, Hd, Hu.
  unfold record. cbn [world yt log]. now rewrite <- app_assoc.
Qed.

End Session.

(** C7. When the session is unset and the creation of the platform client
    fails with message [e]: [initYT] rejects with [e], the request that
    triggered it is answered 500 with [e], and the session variable is still
    unset.  The next call of [initYT] calls the platform again, and when
    that creation succeeds the session is set to the new client and
    returned. *)
Theorem failed_init_is_surfaced_and_retried :
  forall (H : Host) (s : State H) (e : string) (w : World H) (videoId : string),
    yt s = None ->
    Innertube_create H (world s) = (Threw e, w) ->
    String.length videoId = 11 ->
    let s1 := {| world := w; yt := None; log := log s ++ [CallCreate] |} in
    initYT s = (Threw e, s1) /\
    innertube_audio_url videoId s = (Json 500 (ErrorBody e), s1) /\
    innertube_stream videoId s = (Send 500 ("Stream error: " ++ e), s1) /\
    forall (c : Client H) (w' : World H),
      Innertube_create H w = (Ok c, w') ->
      initYT s1 =
        (Ok (Some c),
         {| world := w'; yt := Some c; log := (log s ++ [CallCreate]) ++ [CallCreate] |}).
Proof.
  intros H s e w videoId Hy Hc Hlen s1.
  pose proof (initYT_failed s Hy Hc) as Hinit. fold s1 in Hinit.
  repeat split.
  - exact Hinit.
  - unfold innertube_audio_url. rewrite (invalid_id_false _ Hlen).
    unfold try_catch, bind. now rewrite Hinit.
  - unfold innertube_stream. rewrite (invalid_id_false _ Hlen).
    unfold try_catch, bind. now rewrite Hinit.
  - intros c w' Hc'. now apply (@initYT_created H s1 c w').
Qed.

Lemma failed_init_is_surfaced_and_retried_witness :
  let s := Demo.fresh [] [Threw "network down"; Ok 7] "mp3" [] in
  let s1 := Demo.state "mp3" [] [] [Ok 7] None [CallCreate] in
  innertube_audio_url "dQw4w9WgXcQ" s = (Json 500 (ErrorBody "network down"), s1) /\
  initYT s1 = (Ok (Some 7), Demo.state "mp3" [] [] [] (Some 7) [CallCreate; CallCreate]).
Proof.
  destruct (@failed_init_is_surfaced_and_retried (Demo.host "mp3" [])
              (Demo.fresh [] [Threw "network down"; Ok 7] "mp3" [])
              "network down" {| Demo.disk := []; Demo.supply := [Ok 7] |}
              "dQw4w9WgXcQ" eq_refl eq_refl eq_refl)
    as (_ & Haudio & _ & Hretry).
  split; [exact Haudio|].
  exact (Hretry 7 {| Demo.disk := []; Demo.supply := [] |} eq_refl).
Defined.

(** ** C4: failures of the resolution *)

(** C4, at the failing input. With a ready session, the /api/audio-url
    handler answers a selected audio format that has neither [decipher] nor
    [url] with 500 "No audio format found": the same answer as when there is
    no audio format at all.  On the same inputs the /api/stream handler
    gives two different messages. *)
Theorem audio_url_conflates_failures :
  let ready formats := Demo.state "mp3" formats [] [] (Some 7) [] in
  fst (innertube_audio_url "dQw4w9WgXcQ" (ready [Demo.bare_audio])) =
    Json 500 (ErrorBody "No audio format found") /\
  fst (innertube_audio_url "dQw4w9WgXcQ" (ready [Demo.video_only])) =
    Json 500 (ErrorBody "No audio format found") /\
  fst (innertube_stream "dQw4w9WgXcQ" (ready [Demo.bare_audio])) =
    Send 500 "Stream error: Cannot get audio URL" /\
  fst (innertube_stream "dQw4w9WgXcQ" (ready [Demo.video_only])) =
    Send 500 "Stream error: No audio format available".
Proof. repeat split. Qed.

(** The specification's fourth scenario: a format with [decipher] and no
    [url]; the function is applied to the player of the session. *)
Example decipher_demo :
  let f := {| Innertube.mime_type := Some "audio/mp4"; Innertube.bitrate := Some 128%Z;
              Innertube.url := None;
              Innertube.decipher :=
                Some (fun player => if (player =? 7)%nat then Ok "final-url"
                                    else Threw "wrong player") |} in
  innertube_audio_url "dQw4w9WgXcQ" (Demo.state "mp3" [f] [] [] (Some 7) []) =
    (Json 200 (UrlBody "final-url" "dQw4w9WgXcQ"),
     Demo.state "mp3" [f] [] [] (Some 7)
       [ @CallGetBasicInfo (Demo.host "mp3" [f]) 7 "dQw4w9WgXcQ";
         @CallDecipher (Demo.host "mp3" [f]) 7 ]).
Proof. reflexivity. Qed.

(** ** C2: calls of [initYT] that overlap *)

Section Overlap.
Variable H : Host.

Lemma creations_app (l l' : list (Call H)) :
  creations (l ++ l') = creations l + creations l'.
Proof. unfold creations. now rewrite filter_app, length_app. Qed.

Lemma nth_error_middle (done rest : list (Task H)) (t : Task H) :
  nth_error (done ++ t :: rest) (length done) = Some t.
Proof. rewrite nth_error_app2, Nat.sub_diag by lia. reflexivity. Qed.

Lemma set_task_middle (done rest : list (Task H)) (t t' : Task H) :
  set_task (length done) t' (done ++ t :: rest) = (done ++ t' :: rest)%list.
Proof. induction done as [|a done IH]; cbn; [reflexivity|now rewrite IH]. Qed.

(** One call run alone is the uninterrupted [initYT]. *)
Lemma initYT_alone (s : State H) :
  run (match yt s with Some _ => [Enter 0] | None => [Enter 0; Resume 0] end)
      (pending 1 s)
  = Some {| st := snd (initYT s); tasks := [settled (fst (initYT s))] |}.
Proof.
  destruct (yt s) as [c|] eqn:Hy.
  - rewrite (initYT_ready _ Hy). cbn. now rewrite Hy.
  - destruct (Innertube_create H (world s)) as [[c|e] w] eqn:Hc.
    + rewrite (initYT_created _ Hy Hc). cbn. unfold call. now rewrite Hy, Hc.
    + rewrite (initYT_failed _ Hy Hc). cbn. unfold call. now rewrite Hy, Hc.
Qed.

(** A call that starts while the session is unset calls the platform. *)
Lemma enter_unset (x : Sys H) (i : nat) :
  nth_error (tasks x) i = Some Ready -> yt (st x) = None ->
  step (Enter i) x =
    Some {| st := snd (call CallCreate (Innertube_create H) (st x));
            tasks := set_task i (Awaiting (fst (call CallCreate (Innertube_create H) (st x))))
                              (tasks x) |}.
Proof.
  intros Ht Hy. cbn. rewrite Ht, Hy.
  now destruct (call CallCreate (Innertube_create H) (st x)).
Qed.

Lemma call_create_state (s : State H) :
  yt (snd (call CallCreate (Innertube_create H) s)) = yt s /\
  log (snd (call CallCreate (Innertube_create H) s)) = (log s ++ [CallCreate])%list.
Proof. unfold call. now destruct (Innertube_create H (world s)). Qed.

(** A call that starts once the session is set calls nothing. *)
Lemma enter_set (x : Sys H) (i : nat) (c : Client H) :
  nth_error (tasks x) i = Some Ready -> yt (st x) = Some c ->
  step (Enter i) x =
    Some {| st := st x; tasks := set_task i (Returned (Some c)) (tasks x) |}.
Proof. intros Ht Hy. cbn. now rewrite Ht, Hy. Qed.

(** A suspended call resumes with the outcome of its own creation call. *)
Lemma resume_fulfilled (x : Sys H) (i : nat) (c : Client H) :
  nth_error (tasks x) i = Some (Awaiting (Ok c)) ->
  step (Resume i) x =
    Some {| st := {| world := world (st x); yt := Some c; log := log (st x) |};
            tasks := set_task i (Returned (Some c)) (tasks x) |}.
Proof. intros Ht. cbn. now rewrite Ht. Qed.

Lemma resume_rejected (x : Sys H) (i : nat) (e : string) :
  nth_error (tasks x) i = Some (Awaiting (Threw e)) ->
  step (Resume i) x =
    Some {| st := st x; tasks := set_task i (Failed e) (tasks x) |}.
Proof. intros Ht. cbn. now rewrite Ht. Qed.

Lemma run_app (es es' : list Event) (x : Sys H) :
  run (es ++ es') x =
    match run es x with
    | Some x' => run es' x'
    | None => None
    end.
Proof.
  revert x. induction es as [|e es IH]; intros x; cbn; [reflexivity|].
  destruct (step e x); [apply IH|reflexivity].
Qed.

Lemma nth_error_set_task (l : list (Task H)) (i j : nat) (t0 t : Task H) :
  nth_error l i = Some t0 ->
  nth_error (set_task i t l) j = if Nat.eqb i j then Some t else nth_error l j.
Proof.
  revert i j. induction l as [|a l IH]; intros [|i] [|j] Hn; cbn in *;
    try discriminate; trivial.
  now apply IH.
Qed.

Lemma create_all_length (n : nat) (w : World H) : length (fst (create_all n w)) = n.
Proof.
  revert w. induction n as [|n IH]; intros w; cbn; [reflexivity|].
  destruct (Innertube_create H w) as [r w1]. specialize (IH w1).
  destruct (create_all n w1) as [rs w2]. cbn in *. now rewrite IH.
Qed.

Lemma creations_repeat (n : nat) : creations (repeat (@CallCreate H) n) = n.
Proof. induction n as [|n IH]; [reflexivity|]. unfold creations in *. cbn. now rewrite IH. Qed.

(** [m] calls entering one after the other while the session is unset: each
    one makes a creation call and is left suspended on the promise of that
    call. *)
Lemma enter_each (m : nat) :
  forall (done rest : list (Task H)) (s : State H),
    yt s = None ->
    run (map Enter (seq (length done) m))
        {| st := s; tasks := done ++ repeat Ready m ++ rest |}
    = Some {| st := {| world := snd (create_all m (world s)); yt := None;
                       log := log s ++ repeat CallCreate m |};
              tasks := done ++ map Awaiting (fst (create_all m (world s))) ++ rest |}.
Proof.
  induction m as [|m IH]; intros done rest s Hy.
  - cbn. rewrite app_nil_r. destruct s as [w y l]. cbn in *. now subst y.
  - cbn [seq map repeat run app].
    rewrite enter_unset; cbn [st tasks]; [|apply nth_error_middle|exact Hy].
    rewrite set_task_middle. unfold call. cbn [create_all].
    destruct (Innertube_create H (world s)) as [r w1]. cbn [fst snd].
    specialize (IH (done ++ [Awaiting r])%list rest
                   {| world := w1; yt := yt s; log := log s ++ [CallCreate] |} Hy).
    rewrite length_app, Nat.add_1_r, <- app_assoc in IH. cbn [app world log] in IH.
    rewrite IH. destruct (create_all m w1) as [rs w2]. cbn [fst snd map].
    now rewrite <- !app_assoc.
Qed.

(** [m] calls entering one after the other once the session is set: none
    makes a call, each returns the session. *)
Lemma enter_late (m : nat) :
  forall (done rest : list (Task H)) (s : State H) (c : Client H),
    yt s = Some c ->
    run (map Enter (seq (length done) m))
        {| st := s; tasks := done ++ repeat Ready m ++ rest |}
    = Some {| st := s; tasks := done ++ repeat (Returned (Some c)) m ++ rest |}.
Proof.
  induction m as [|m IH]; intros done rest s c Hy; [reflexivity|].
  cbn [seq map repeat run app].
  rewrite (@enter_set _ _ c); cbn [st tasks]; [|apply nth_error_middle|exact Hy].
  rewrite set_task_middle.
  specialize (IH (done ++ [Returned (Some c)])%list rest s c Hy).
  rewrite length_app, Nat.add_1_r, <- app_assoc in IH. cbn [app] in IH.
  rewrite IH. now rewrite <- !app_assoc.
Qed.

Lemma stored_cons {C : Type} (y : option C) (r : Outcome C) (rs : list (Outcome C)) :
  stored y (r :: rs) = stored (match r with Ok c => Some c | Threw _ => y end) rs.
Proof. reflexivity. Qed.

(** A suspended call that resumes ends with the outcome [r] of its promise;
    the session variable becomes the client of [r], if there is one. *)
Lemma resume_one (x : Sys H) (i : nat) (r : Outcome (Client H)) :
  nth_error (tasks x) i = Some (Awaiting r) ->
  step (Resume i) x =
    Some {| st := {| world := world (st x); yt := stored (yt (st x)) [r];
                     log := log (st x) |};
            tasks := set_task i (ends_with r) (tasks x) |}.
Proof.
  intros Ht. destruct r as [c|e].
  - now rewrite (resume_fulfilled _ _ Ht).
  - rewrite (resume_rejected _ _ Ht). now destruct x as [[w y l] ts].
Qed.

(** Suspended calls resuming in the order [p], each on the promise found at
    its position in [rs]. *)
Lemma resume_each (rs : list (Outcome (Client H))) (p : list nat) :
  forall x : Sys H,
    NoDup p ->
    (forall i, In i p ->
       exists r, nth_error rs i = Some r /\ nth_error (tasks x) i = Some (Awaiting r)) ->
    exists ts,
      run (map Resume p) x =
        Some {| st := {| world := world (st x);
                         yt := stored (yt (st x)) (in_order p rs);
                         log := log (st x) |};
                tasks := ts |} /\
      (forall j, In j p -> nth_error ts j = option_map ends_with (nth_error rs j)) /\
      (forall j, ~ In j p -> nth_error ts j = nth_error (tasks x) j).
Proof.
  induction p as [|i p IH]; intros x Hnd Hall.
  - exists (tasks x). cbn. split; [now destruct x as [[w y l] ts]|].
    split; [intros j []|reflexivity].
  - inversion Hnd as [|? ? Hi Hnd']; subst.
    destruct (Hall i (or_introl eq_refl)) as (r & Hr & Ht).
    cbn [map run]. rewrite (resume_one _ _ Ht).
    destruct (IH {| st := {| world := world (st x); yt := stored (yt (st x)) [r];
                             log := log (st x) |};
                    tasks := set_task i (ends_with r) (tasks x) |} Hnd')
      as (ts & Hrun & Hin & Hout).
    { intros j Hj. destruct (Hall j (or_intror Hj)) as (rj & Hrj & Htj).
      exists rj. split; [exact Hrj|]. cbn [tasks].
      rewrite (@nth_error_set_task _ _ j _ _ Ht).
      destruct (Nat.eqb_spec i j) as [->|_]; [contradiction|exact Htj]. }
    exists ts. cbn [st tasks world yt log] in *. split; [|split].
    + rewrite Hrun. unfold in_order. cbn [flat_map]. rewrite Hr.
      fold (in_order p rs). reflexivity.
    + intros j [<-|Hj]; [|now apply Hin].
      rewrite (Hout i Hi), (@nth_error_set_task _ _ i _ _ Ht), Nat.eqb_refl, Hr. reflexivity.
    + intros j Hj. rewrite (Hout j); [|intros Hj'; apply Hj; now right].
      rewrite (@nth_error_set_task _ _ j _ _ Ht).
      destruct (Nat.eqb_spec i j) as [->|_]; [|reflexivity].
      exfalso. apply Hj. now left.
Qed.

(** [N] calls that all start before any is resumed, then resumed in the
    order [p]; [M] more calls have not started. *)
Lemma overlap_run (N M : nat) (s : State H) (p : list nat) :
  yt s = None ->
  Permutation p (seq 0 N) ->
  run (map Enter (seq 0 N) ++ map Resume p) (pending (N + M) s)
  = Some {| st := {| world := snd (create_all N (world s));
                     yt := stored None (in_order p (fst (create_all N (world s))));
                     log := log s ++ repeat CallCreate N |};
            tasks := map ends_with (fst (create_all N (world s))) ++ repeat Ready M |}.
Proof.
  intros Hy Hp. rewrite run_app. unfold pending. rewrite repeat_app.
  pose proof (enter_each N [] (repeat Ready M) s Hy) as Henter.
  cbn [length app] in Henter. rewrite Henter. clear Henter.
  set (rs := fst (create_all N (world s))).
  assert (Hlen : length rs = N) by apply create_all_length.
  destruct (@resume_each rs p
              {| st := {| world := snd (create_all N (world s)); yt := None;
                          log := log s ++ repeat CallCreate N |};
                 tasks := map Awaiting rs ++ repeat Ready M |})
    as (ts & Hrun & Hin & Hout).
  { apply (Permutation_NoDup (Permutation_sym Hp)), seq_NoDup. }
  { intros i Hi. apply (Permutation_in _ Hp), in_seq in Hi.
    destruct (nth_error rs i) as [r|] eqn:Hr.
    - exists r. split; [reflexivity|]. cbn [tasks].
      rewrite nth_error_app1 by (rewrite length_map; lia).
      now rewrite nth_error_map, Hr.
    - apply nth_error_None in Hr. lia. }
  rewrite Hrun. cbn [st tasks world yt log] in *. do 2 f_equal.
  apply nth_error_ext. intros j.
  destruct (Nat.lt_ge_cases j N) as [Hj|Hj].
  - rewrite Hin by (apply (Permutation_in _ (Permutation_sym Hp)), in_seq; lia).
    rewrite nth_error_app1 by (rewrite length_map; lia).
    now rewrite nth_error_map.
  - rewrite Hout by (intros Hj'; apply (Permutation_in _ Hp), in_seq in Hj'; lia).
    rewrite !nth_error_app2 by (rewrite length_map; lia).
    now rewrite !length_map.
Qed.

End Overlap.

(** C2, amended. Initialisation is lazy and guarded by the test of the
    session variable alone.  From a state with no session, let [N] calls all
    start before any creation has completed, calls [0] to [N-1] in the order
    they start, while [M] further calls have not started.  The [N] calls
    make [N] creation calls, one each, and are left suspended with the
    session still unset.  When the promises have settled, in whatever order
    [p], call [i] has ended with the outcome of its own creation call, the
    [i]-th one made: it has returned the client created for it, or failed
    with the error of its creation; the session variable holds the client
    of the call resumed last among the fulfilled ones, or nothing when all
    failed.  A call that starts then, the session being set, makes no
    creation call and returns the stored session. *)
Theorem init_is_lazy_not_single_flight :
  forall (H : Host) (N M : nat) (s : State H) (p : list nat),
    yt s = None ->
    Permutation p (seq 0 N) ->
    let outcomes := fst (create_all N (world s)) in
    let suspended :=
      {| world := snd (create_all N (world s)); yt := None;
         log := log s ++ repeat CallCreate N |} in
    let after :=
      {| world := snd (create_all N (world s));
         yt := stored None (in_order p outcomes);
         log := log s ++ repeat CallCreate N |} in
    length outcomes = N /\
    run (map Enter (seq 0 N)) (pending (N + M) s)
    = Some {| st := suspended; tasks := map Awaiting outcomes ++ repeat Ready M |} /\
    run (map Enter (seq 0 N) ++ map Resume p) (pending (N + M) s)
    = Some {| st := after; tasks := map ends_with outcomes ++ repeat Ready M |} /\
    creations (log after) = creations (log s) + N /\
    (forall c, yt after = Some c ->
       run (map Enter (seq 0 N) ++ map Resume p ++ map Enter (seq N M)) (pending (N + M) s)
       = Some {| st := after;
                 tasks := map ends_with outcomes ++ repeat (Returned (Some c)) M |}).
Proof.
  intros H N M s p Hy Hp outcomes suspended after.
  assert (Hlen : length outcomes = N) by apply create_all_length.
  split; [exact Hlen|]. split; [|split; [|split]].
  - unfold pending. rewrite repeat_app.
    exact (@enter_each H N [] (repeat Ready M) s Hy).
  - exact (@overlap_run H N M s p Hy Hp).
  - subst after. cbn [log]. now rewrite creations_app, creations_repeat.
  - intros c Hc. rewrite app_assoc, run_app, (@overlap_run H N M s p Hy Hp).
    fold outcomes. fold after.
    pose proof (@enter_late H M (map ends_with outcomes) [] after c Hc) as Hlate.
    rewrite length_map, Hlen, !app_nil_r in Hlate. exact Hlate.
Qed.

Lemma init_is_lazy_not_single_flight_witness :
  run ([Enter 0; Enter 1; Enter 2] ++ [Resume 2; Resume 0; Resume 1] ++ [Enter 3])
      (pending 4 (Demo.fresh [] [Ok 7; Threw "down"; Ok 9] "mp3" []))
  = Some {| st := Demo.state "mp3" [] [] [] (Some 7) [CallCreate; CallCreate; CallCreate];
            tasks := [ @Returned (Demo.host "mp3" []) (Some 7);
                       @Failed (Demo.host "mp3" []) "down";
                       @Returned (Demo.host "mp3" []) (Some 9);
                       @Returned (Demo.host "mp3" []) (Some 7) ] |}.
Proof.
  exact (proj2 (proj2 (proj2 (proj2
    (@init_is_lazy_not_single_flight (Demo.host "mp3" []) 3 1
       (Demo.fresh [] [Ok 7; Threw "down"; Ok 9] "mp3" []) [2; 0; 1] eq_refl
       (perm_trans (perm_swap 0 2 [1]) (perm_skip 0 (perm_swap 1 2 []))))))) 7 eq_refl).
Defined.

(** Two requests before any session exists, on a host where both creations
    succeed: both call the platform, the first gets client 7, the second
    client 8, and the session variable ends up holding the second. *)
Example two_overlapping_calls :
  run [Enter 0; Enter 1; Resume 0; Resume 1]
      (pending 2 (Demo.fresh [] [Ok 7; Ok 8] "mp3" []))
  = Some {| st := Demo.state "mp3" [] [] [] (Some 8) [CallCreate; CallCreate];
            tasks := [ @Returned (Demo.host "mp3" []) (Some 7);
                       @Returned (Demo.host "mp3" []) (Some 8) ] |}.
Proof. reflexivity. Qed.

(** C2 as stated fails: the server is not single-flight. *)
Lemma initYT_is_not_single_flight : ~ SingleFlight (Demo.host "mp3" []).
Proof.
  intros Hsf.
  destruct (Hsf 2 (Demo.fresh [] [Ok 7; Ok 8] "mp3" [])
                [0; 1] [Resume 0; Resume 1]
                {| st := Demo.state "mp3" [] [] [] (Some 8) [CallCreate; CallCreate];
                   tasks := [ @Returned (Demo.host "mp3" []) (Some 7);
                       @Returned (Demo.host "mp3" []) (Some 8) ] |})
    as [Hone _]; try reflexivity; [lia|].
  cbn in Hone. discriminate.
Qed.

(** On every host two calls that overlap are enough: both call the
    platform. *)
Lemma two_overlapping_calls_create_twice (H : Host) (s : State H) :
  yt s = None -> ~ SingleFlight H.
Proof.
  intros Hy Hsf.
  pose proof (@enter_each H 2 [] [] s Hy) as Hrun.
  cbn [length app repeat seq map] in Hrun.
  destruct (Hsf 2 s [0; 1] [] _ (le_S _ _ (le_n 1)) Hy (Permutation_refl _) Hrun)
    as [Hone _].
  cbn [st log] in Hone. rewrite creations_app in Hone.
  change (creations [@CallCreate H; @CallCreate H]) with 2 in Hone. lia.
Qed.

(** The same two requests served one after the other: one creation call. *)
Example two_successive_calls :
  run [Enter 0; Resume 0; Enter 1]
      (pending 2 (Demo.fresh [] [Ok 7; Ok 8] "mp3" []))
  = Some {| st := Demo.state "mp3" [] [] [Ok 8] (Some 7) [CallCreate];
            tasks := [ @Returned (Demo.host "mp3" []) (Some 7);
                       @Returned (Demo.host "mp3" []) (Some 7) ] |}.
Proof. reflexivity. Qed.

(* ===================================================================== *)
(** * Further properties of the code *)
(* ===================================================================== *)

(** ** Selection, compositionally *)

(** The selected format is the first audio format of maximal bitrate, and
    the only one. *)
Lemma pick_audio_first_maximal {A} (mime : A -> option string) (rate : A -> option Z)
    (fs : list A) (x : A) :
  pick_audio mime rate fs = Some x <-> exists i, FirstMaximalAudio mime rate fs i x.
Proof.
  split.
  - intros Hp. destruct (pick_audio_first_best _ _ _ Hp) as (i & Hn & Hx & Hall).
    exists i. repeat split; trivial.
    + now apply is_audio_HasAudio.
    + apply is_audio_HasAudio in H0. rewrite <- !or_zero_bitrate_of.
      now apply (Hall j y H H0).
    + apply is_audio_HasAudio in H0. rewrite <- !or_zero_bitrate_of.
      now apply (Hall j y H H0).
  - intros (i & Hn & Hx & Hall).
    destruct (pick_audio mime rate fs) as [x'|] eqn:Hp.
    + destruct (pick_audio_first_best _ _ _ Hp) as (i' & Hn' & Hx' & Hall').
      apply is_audio_HasAudio in Hx'.
      destruct (Hall i' x' Hn' Hx') as [Hle Htie].
      apply is_audio_HasAudio in Hx.
      destruct (Hall' i x Hn Hx) as [Hle' Htie'].
      cbv beta in Hle', Htie'.
      change (JS.or_zero (rate x)) with (bitrate_of (rate x)) in Hle', Htie'.
      change (JS.or_zero (rate x')) with (bitrate_of (rate x')) in Hle', Htie'.
      assert (Heq : bitrate_of (rate x') = bitrate_of (rate x)) by lia.
      assert (i = i') by (specialize (Htie Heq); specialize (Htie' (eq_sym Heq)); lia).
      subst i'. congruence.
    + exfalso. pose proof (proj1 (pick_audio_none mime rate fs) Hp x) as Hno.
      apply nth_error_In in Hn. specialize (Hno Hn).
      apply is_audio_not_HasAudio in Hno. now apply Hno.
Qed.

(** X1. Selecting in two arrays put end to end is selecting in each and
    keeping the one of larger bitrate (the bitrate itself when the format
    has one, 0 when it has none), the selection of the first array winning a
    tie; an array without audio format does not count.  So the result for
    [l1 ++ l2] is the first audio format of maximal bitrate of the whole. *)
Theorem pick_audio_app :
  forall (A : Type) (mime : A -> option string) (rate : A -> option Z) (l1 l2 : list A),
    pick_audio mime rate (l1 ++ l2) =
      match pick_audio mime rate l1, pick_audio mime rate l2 with
      | None, r => r
      | Some a, None => Some a
      | Some a, Some b =>
          if (bitrate_of (rate b) <=? bitrate_of (rate a))%Z then Some a else Some b
      end /\
    forall x, pick_audio mime rate (l1 ++ l2) = Some x ->
      exists i, FirstMaximalAudio mime rate (l1 ++ l2) i x.
Proof.
  intros A mime rate l1 l2. split; [|intros x Hx; now apply pick_audio_first_maximal].
  change bitrate_of with JS.or_zero. induction l1 as [|x l1 IH]; [reflexivity|].
  cbn [app]. rewrite !pick_audio_cons, IH.
  destruct (is_audio mime x); [|reflexivity].
  destruct (pick_audio mime rate l1) as [a|], (pick_audio mime rate l2) as [b|];
    try reflexivity.
  - destruct (Z.leb_spec (JS.or_zero (rate b)) (JS.or_zero (rate a))),
             (Z.leb_spec (JS.or_zero (rate a)) (JS.or_zero (rate x)));
      repeat match goal with
             | |- context [(?u <=? ?v)%Z] => destruct (Z.leb_spec u v)
             end; try reflexivity; lia.
  - destruct (Z.leb_spec (JS.or_zero (rate a)) (JS.or_zero (rate x))); reflexivity.
Qed.

(** X2. The audio formats, filtered and sorted as the handlers do before
    they take the first cell: a rearrangement of the audio formats of the
    input in non-increasing order of bitrate (the bitrate itself when the
    format has one, 0 when it has none), formats of equal bitrate keeping
    the order they have in the input. *)
Theorem audio_formats_sorted_stably :
  forall (A : Type) (mime : A -> option string) (rate : A -> option Z) (fs : list A),
    let sorted := JS.sort (by_bitrate_desc rate) (filter (is_audio mime) fs) in
    Permutation (filter (is_audio mime) fs) sorted /\
    StronglySorted (fun a b => (bitrate_of (rate b) <= bitrate_of (rate a))%Z) sorted /\
    (forall f, In f sorted <-> In f fs /\ HasAudio (mime f)) /\
    forall k : Z,
      filter (fun f => (bitrate_of (rate f) =? k)%Z) sorted =
      filter (fun f => (bitrate_of (rate f) =? k)%Z) (filter (is_audio mime) fs).
Proof.
  intros A mime rate fs sorted. subst sorted. split; [|split; [|split]].
  - apply sort_perm.
  - pose proof (sort_sorted (fun f => JS.or_zero (rate f)) (filter (is_audio mime) fs)) as Hs.
    exact Hs.
  - intros f. split.
    + intros Hin. apply (Permutation_in f (Permutation_sym (sort_perm _ _))) in Hin.
      apply filter_In in Hin. destruct Hin as [Hin Ha].
      split; [exact Hin|now apply is_audio_HasAudio].
    + intros [Hin Ha]. apply (Permutation_in f (sort_perm _ _)).
      apply filter_In. split; [exact Hin|now apply is_audio_HasAudio].
  - intros k. exact (sort_stable (fun f => JS.or_zero (rate f)) k _).
Qed.

(** ** Footprints *)

Lemma Kept_refl {C : Type} (a : option C) : Kept a a.
Proof. now intros c. Qed.

Lemma Kept_trans {C : Type} (a b c : option C) : Kept a b -> Kept b c -> Kept a c.
Proof. intros Hab Hbc x Hx. now apply Hbc, Hab. Qed.

Section Footprint.
Variable H : Host.
Variable Q : Call H -> Prop.
Variable Y : option (Client H) -> option (Client H) -> Prop.
Hypothesis Y_refl : forall a, Y a a.
Hypothesis Y_trans : forall a b c, Y a b -> Y b c -> Y a c.

Lemma emits_ret {A} (R : A -> Prop) (a : A) : R a -> Emits Q Y R (ret a).
Proof.
  intros Ha s. exists []. cbn. rewrite app_nil_r. repeat split; trivial.
  now intros b [= <-].
Qed.

Lemma emits_throw {A} (R : A -> Prop) (msg : string) : Emits Q Y R (throw msg).
Proof.
  intros s. exists []. cbn. rewrite app_nil_r. repeat split; trivial. discriminate.
Qed.

Lemma emits_call {A} (c : Call H) (op : World H -> Outcome A * World H) :
  Q c -> Emits Q Y (fun _ => True) (call c op).
Proof.
  intros Hc s. exists [c]. unfold call. destruct (op (world s)). cbn.
  repeat split; trivial. now constructor.
Qed.

Lemma emits_query {A} (c : Call H) (op : World H -> A) :
  Q c -> Emits Q Y (fun _ => True) (query c op).
Proof.
  intros Hc s. exists [c]. cbn. repeat split; trivial. now constructor.
Qed.

Lemma emits_invoke {A} (c : Call H) (r : Outcome A) :
  Q c -> Emits Q Y (fun _ => True) (invoke c r).
Proof.
  intros Hc s. exists [c]. cbn. repeat split; trivial. now constructor.
Qed.

Lemma emits_bind {A B} (R1 : A -> Prop) (R : B -> Prop) (m : M H A) (k : A -> M H B) :
  Emits Q Y R1 m -> (forall a, R1 a -> Emits Q Y R (k a)) -> Emits Q Y R (bind m k).
Proof.
  intros Hm Hk s. unfold bind.
  destruct (Hm s) as (r1 & Hl1 & Hq1 & Hy1 & Hr1).
  destruct (m s) as [[a|e] s1]; cbn [fst snd] in *.
  - destruct (Hk a (Hr1 a eq_refl) s1) as (r2 & Hl2 & Hq2 & Hy2 & Hr2).
    exists (r1 ++ r2)%list. repeat split.
    + now rewrite Hl2, Hl1, app_assoc.
    + apply Forall_app. now split.
    + now apply (Y_trans Hy1).
    + exact Hr2.
  - exists r1. repeat split; trivial. discriminate.
Qed.

Lemma emits_weaken {A} (R R' : A -> Prop) (m : M H A) :
  Emits Q Y R m -> (forall a, R a -> R' a) -> Emits Q Y R' m.
Proof.
  intros Hm Hw s. destruct (Hm s) as (r & Hl & Hq & Hy & Hr).
  exists r. repeat split; trivial. intros a Ha. now apply Hw, Hr.
Qed.

(** [try { body } catch { handler }]: the answer is the body's, when it
    returns, or the handler's. *)
Lemma handles_try_catch (R : Response (Stream H) -> Prop)
    (body : M H (Response (Stream H))) (handler : string -> Response (Stream H)) :
  Emits Q Y R body -> (forall e, R (handler e)) ->
  Handles Q Y R (try_catch body handler).
Proof.
  intros Hb Hh s. unfold try_catch. destruct (Hb s) as (r & Hl & Hq & Hy & Hr).
  exists r. destruct (body s) as [[a|e] s1]; cbn [fst snd] in *; repeat split; trivial.
  now apply Hr.
Qed.

Lemma handles_answer (R : Response (Stream H) -> Prop) (r : Response (Stream H)) :
  R r -> Handles Q Y R (answer r).
Proof.
  intros Hr s. exists []. cbn. rewrite app_nil_r. repeat split; trivial.
Qed.

End Footprint.

Ltac y_side :=
  first [ exact (@Kept_refl _) | exact (@Kept_trans _)
        | (intros ?; reflexivity)
        | (intros ? ? ? ? ?; etransitivity; eassumption) ].

Ltac emits_step :=
  first
    [ eapply emits_ret; [y_side|]
    | eapply emits_throw; y_side
    | eapply emits_call; [y_side|]
    | eapply emits_query; [y_side|]
    | eapply emits_invoke; [y_side|]
    | eapply emits_bind with (R1 := fun _ => True); [y_side| |intros ? _] ].

Ltac bind_as x :=
  eapply emits_bind with (R1 := fun _ => True); [y_side| |intros x _].

Section HandlerFootprints.
Variable H : Host.

Lemma search_handles (q : option string) :
  Handles (fun c : Call H => c = CallYtsr (JS.or_else q "") 20) eq
          (fun r => (exists items, r = Json 200 (ItemsBody items)) \/
                    (exists e, r = Json 500 (ErrorBody e)))
          (search q).
Proof.
  unfold search. apply handles_try_catch; [|intros e; right; now exists e].
  repeat emits_step; [reflexivity|]. left. eauto.
Qed.

Lemma ytdlp_audio_url_handles (videoId : string) :
  Handles (fun c : Call H => c = CallYtdlp (watch_url videoId) url_options) eq
          (fun r => (invalid_id videoId = true /\ r = Json 400 (ErrorBody "Invalid video ID")) \/
                    (exists u, r = Json 200 (UrlBody u videoId)) \/
                    (exists e, r = Json 500 (ErrorBody e)))
          (ytdlp_audio_url videoId).
Proof.
  unfold ytdlp_audio_url. destruct (invalid_id videoId).
  - apply handles_answer; [y_side|left; now split].
  - apply handles_try_catch; [|intros e; right; right; now exists e].
    repeat emits_step; [reflexivity|]. right. left. eauto.
Qed.

Lemma ytdlp_stream_handles (videoId : string) :
  Handles (fun c : Call H => c = CallYtdlp (watch_url videoId) url_options) eq
          (fun r => (invalid_id videoId = true /\ r = Send 400 "Invalid video ID") \/
                    (exists u, r = Redirect u) \/
                    r = Send 500 "Stream error")
          (ytdlp_stream videoId).
Proof.
  unfold ytdlp_stream. destruct (invalid_id videoId).
  - apply handles_answer; [y_side|left; now split].
  - apply handles_try_catch; [|intros e; right; now right].
    repeat emits_step; [reflexivity|]. right. left. eauto.
Qed.

Lemma playdl_audio_url_handles (videoId : string) :
  Handles (fun c : Call H => c = CallVideoInfo (watch_url videoId)) eq
          (fun r => (invalid_id videoId = true /\ r = Json 400 (ErrorBody "Invalid video ID")) \/
                    (exists u, r = Json 200 (UrlBody u videoId)) \/
                    (exists e, r = Json 500 (ErrorBody e)))
          (playdl_audio_url videoId).
Proof.
  unfold playdl_audio_url. destruct (invalid_id videoId).
  - apply handles_answer; [y_side|left; now split].
  - apply handles_try_catch; [|intros e; right; right; now exists e].
    emits_step; [emits_step; reflexivity|]. cbv zeta.
    destruct (JS.truthy _); emits_step. right. left. eauto.
Qed.

Lemma playdl_stream_handles (videoId : string) :
  Handles (fun c : Call H => c = CallPlayStream (watch_url videoId) 2) eq
          (fun r => (invalid_id videoId = true /\ r = Send 400 "Invalid video ID") \/
                    (exists hs st, r = Pipe hs st) \/
                    r = Send 500 "Stream error")
          (playdl_stream videoId).
Proof.
  unfold playdl_stream. destruct (invalid_id videoId).
  - apply handles_answer; [y_side|left; now split].
  - apply handles_try_catch; [|intros e; right; now right].
    repeat emits_step; [reflexivity|]. right. left. eauto.
Qed.

Lemma playdl_download_handles (videoId : string) :
  Handles (fun c : Call H => c = CallPlayStream (watch_url videoId) 2) eq
          (fun r => (invalid_id videoId = true /\ r = Send 400 "Invalid video ID") \/
                    (exists hs st, r = Pipe hs st) \/
                    r = Send 500 "Download error")
          (playdl_download videoId).
Proof.
  unfold playdl_download. destruct (invalid_id videoId).
  - apply handles_answer; [y_side|left; now split].
  - apply handles_try_catch; [|intros e; right; now right].
    cbv zeta.
    bind_as stream; [emits_step; reflexivity|].
    bind_as contentType;
      [unfold setHeader; destruct (header_value_ok _); emits_step; exact I|].
    bind_as disposition;
      [unfold setHeader; destruct (header_value_ok _); emits_step; exact I|].
    emits_step. right. left. eauto.
Qed.

End HandlerFootprints.

(** The calls and the answers of the download handler of the yt-dlp
    variant, whatever the host does. *)
Lemma ytdlp_download_handles (H : Host) (videoId : string) :
  let out := canonical H videoId in
  let listed p := exists f, String.prefix videoId f = true /\
                            p = path_join H (DOWNLOADS_DIR H) f in
  Handles
    (fun c : Call H =>
       c = CallExistsSync out \/
       (exists p, listed p /\ p <> out /\ c = CallExistsSync p) \/
       c = CallYtdlp (watch_url videoId)
             (download_options (JS.replace out ".mp3" ".%(ext)s")) \/
       c = CallReaddirSync (DOWNLOADS_DIR H) \/
       (exists p, listed p /\ p <> out /\ c = CallRenameSync p out))
    eq
    (fun r => (invalid_id videoId = true /\ r = Send 400 "Invalid video ID") \/
              r = SendFile out \/
              r = Send 500 "Download failed" \/
              r = Send 500 "Download error")
    (ytdlp_download videoId).
Proof.
  intros out listed. unfold ytdlp_download. fold (canonical H videoId). fold out.
  destruct (invalid_id videoId).
  - apply handles_answer; [y_side|left; now split].
  - apply handles_try_catch; [|intros e; now repeat right].
    bind_as cached; [emits_step; now left|]. destruct cached.
    + emits_step. right. now left.
    + cbv zeta. bind_as stdout; [emits_step; right; right; now left|].
      bind_as files; [emits_step; right; right; right; now left|].
      destruct (JS.find (fun f => JS.startsWith f videoId) files) as [f|] eqn:Hf;
        [|emits_step; right; right; now left].
      apply find_some in Hf. destruct Hf as [_ Hp]. unfold JS.startsWith in Hp.
      destruct f as [|ch f]; [emits_step; right; right; now left|].
      cbn [JS.truthy JS.or_else].
      assert (Hl : listed (path_join H (DOWNLOADS_DIR H) (String ch f)))
        by (now exists (String ch f)).
      bind_as done; [|emits_step; right; now left].
      destruct (path_join H (DOWNLOADS_DIR H) (String ch f) =? out) eqn:Hs; cbn [negb].
      * emits_step. exact I.
      * apply String.eqb_neq in Hs.
        bind_as there; [emits_step; right; left; eauto|].
        destruct there; emits_step; [|exact I].
        repeat right. eauto.
Qed.

Lemma emits_calls_weaken {H : Host} {A : Type} (Q Q' : Call H -> Prop)
    (Y : option (Client H) -> option (Client H) -> Prop) (R R' : A -> Prop) (m : M H A) :
  Emits Q Y R m -> (forall c, Q c -> Q' c) -> (forall a, R a -> R' a) -> Emits Q' Y R' m.
Proof.
  intros Hm Hq Hr s. destruct (Hm s) as (r & Hl & Hf & Hy & Ha).
  exists r. repeat split; trivial.
  - eapply Forall_impl; [exact Hq|exact Hf].
  - intros a Hok. now apply Hr, Ha.
Qed.

Lemma handles_weaken {H : Host} (Q Q' : Call H -> Prop)
    (Y Y' : option (Client H) -> option (Client H) -> Prop)
    (R R' : Response (Stream H) -> Prop) (h : Handler H) :
  Handles Q Y R h -> (forall c, Q c -> Q' c) -> (forall a b, Y a b -> Y' a b) ->
  (forall r, R r -> R' r) -> Handles Q' Y' R' h.
Proof.
  intros Hh Hq Hy Hr s. destruct (Hh s) as (r & Hl & Hf & Hk & Ha).
  exists r. repeat split; auto. eapply Forall_impl; [exact Hq|exact Hf].
Qed.

Section InnertubeFootprints.
Variable H : Host.

(** [initYT] calls nothing but the creation of a client, never changes a
    session that is set, and returns a client. *)
Lemma initYT_emits :
  Emits (fun c : Call H => c = CallCreate) Kept
        (fun v : option (Client H) => exists c, v = Some c) (@initYT H).
Proof.
  intros s. destruct (yt s) as [c|] eqn:Hy.
  - exists []. rewrite (initYT_ready _ Hy). cbn [fst snd]. rewrite app_nil_r, Hy.
    repeat split; trivial; [apply Kept_refl|]. intros a [= <-]. now exists c.
  - exists [CallCreate]. destruct (Innertube_create H (world s)) as [[c|e] w] eqn:Hc.
    + rewrite (initYT_created _ Hy Hc). cbn [fst snd log yt]. repeat split.
      * now repeat constructor.
      * intros x Hx. discriminate.
      * intros a [= <-]. now exists c.
    + rewrite (initYT_failed _ Hy Hc). cbn [fst snd log yt]. repeat split.
      * now repeat constructor.
      * apply Kept_refl.
      * discriminate.
Qed.

Let Qi (videoId : string) (c : Call H) : Prop :=
  c = CallCreate \/ (exists k, c = CallGetBasicInfo k videoId) \/
  (exists p, c = CallDecipher p).

Lemma innertube_audio_url_handles (videoId : string) :
  Handles (Qi videoId) Kept
          (fun r => (invalid_id videoId = true /\ r = Json 400 (ErrorBody "Invalid video ID")) \/
                    (exists u, r = Json 200 (UrlBody u videoId)) \/
                    (exists e, r = Json 500 (ErrorBody e)))
          (innertube_audio_url videoId).
Proof.
  unfold innertube_audio_url. destruct (invalid_id videoId).
  - apply handles_answer; [y_side|left; now split].
  - apply handles_try_catch; [|intros e; right; right; now exists e].
    bind_as youtube.
    { eapply emits_calls_weaken; [apply initYT_emits|intros c ->; now left|trivial]. }
    bind_as client; [destruct youtube; emits_step; exact I|].
    bind_as info; [emits_step; right; left; eauto|]. cbv zeta.
    destruct (opt_chain (innertube_select info) _) as [d|].
    + bind_as u; [emits_step; right; right; eauto|]. emits_step. right. left. eauto.
    + destruct (JS.truthy _); emits_step. right. left. eauto.
Qed.

Lemma innertube_stream_handles (videoId : string) :
  Handles (Qi videoId) Kept
          (fun r => (invalid_id videoId = true /\ r = Send 400 "Invalid video ID") \/
                    (exists u, r = Redirect u) \/
                    (exists e, r = Send 500 ("Stream error: " ++ e)))
          (innertube_stream videoId).
Proof.
  unfold innertube_stream. destruct (invalid_id videoId).
  - apply handles_answer; [y_side|left; now split].
  - apply handles_try_catch; [|intros e; right; right; now exists e].
    bind_as youtube.
    { eapply emits_calls_weaken; [apply initYT_emits|intros c ->; now left|trivial]. }
    bind_as client; [destruct youtube; emits_step; exact I|].
    bind_as info; [emits_step; right; left; eauto|].
    destruct (innertube_select info) as [f|]; [|emits_step].
    bind_as u; [|emits_step; right; left; eauto].
    destruct (Innertube.decipher f) as [d|].
    + emits_step. right. right. eauto.
    + destruct (JS.truthy _); emits_step. exact I.
Qed.

End InnertubeFootprints.

Ltac by_footprint lemma :=
  eapply handles_weaken; [apply lemma| | |];
  [ intros c Hc; cbv beta in Hc;
    repeat match goal with
           | Hc : _ \/ _ |- _ => destruct Hc as [Hc|Hc]
           | Hc : exists _, _ |- _ => destruct Hc as [? Hc]
           | Hc : _ /\ _ |- _ => destruct Hc as [? Hc]
           end; subst; reflexivity
  | auto
  | auto ].

(** X3. Of all the handlers, only the download handler of the yt-dlp variant
    calls the filesystem: search and the eight other id-taking handlers log
    no [existsSync], [readdirSync] or [renameSync], in any state and
    whatever the host answers. *)
Theorem only_ytdlp_download_touches_the_disk :
  forall (H : Host) (q : option string) (videoId : string),
    let quiet := Handles (fun c : Call H => disk_call c = false)
                         (fun _ _ => True) (fun _ => True) in
    quiet (search q) /\
    quiet (ytdlp_audio_url videoId) /\ quiet (ytdlp_stream videoId) /\
    quiet (playdl_audio_url videoId) /\ quiet (playdl_stream videoId) /\
    quiet (playdl_download videoId) /\
    quiet (innertube_audio_url videoId) /\ quiet (innertube_stream videoId) /\
    quiet (innertube_download videoId).
Proof.
  intros H q videoId quiet. subst quiet. repeat split.
  - by_footprint (@search_handles H q).
  - by_footprint (@ytdlp_audio_url_handles H videoId).
  - by_footprint (@ytdlp_stream_handles H videoId).
  - by_footprint (@playdl_audio_url_handles H videoId).
  - by_footprint (@playdl_stream_handles H videoId).
  - by_footprint (@playdl_download_handles H videoId).
  - by_footprint (@innertube_audio_url_handles H videoId).
  - by_footprint (@innertube_stream_handles H videoId).
  - apply handles_answer; trivial.
Qed.

(** X4. Search and the handlers of the yt-dlp and play-dl variants never
    use the Innertube session: they log no client creation, metadata
    request or decipher call, and leave the session variable as it is.  The
    download handler of the Innertube variant makes no call at all. *)
Theorem session_used_by_innertube_resolvers_only :
  forall (H : Host) (q : option string) (videoId : string),
    let apart := Handles (fun c : Call H => session_call c = false) eq (fun _ => True) in
    apart (search q) /\
    apart (ytdlp_audio_url videoId) /\ apart (ytdlp_stream videoId) /\
    apart (ytdlp_download videoId) /\
    apart (playdl_audio_url videoId) /\ apart (playdl_stream videoId) /\
    apart (playdl_download videoId) /\
    Handles (fun _ => False) eq (fun r => r = Redirect ("/api/stream/" ++ videoId))
            (@innertube_download H videoId).
Proof.
  intros H q videoId apart. subst apart. repeat split.
  - by_footprint (@search_handles H q).
  - by_footprint (@ytdlp_audio_url_handles H videoId).
  - by_footprint (@ytdlp_stream_handles H videoId).
  - pose proof (@ytdlp_download_handles H videoId) as Hd. cbv zeta in Hd.
    by_footprint Hd.
  - by_footprint (@playdl_audio_url_handles H videoId).
  - by_footprint (@playdl_stream_handles H videoId).
  - by_footprint (@playdl_download_handles H videoId).
  - apply handles_answer; trivial.
Qed.

Lemma invalid_id_true_length (videoId : string) :
  invalid_id videoId = true -> String.length videoId <> 11.
Proof.
  rewrite invalid_id_length, negb_true_iff. apply Nat.eqb_neq.
Qed.

Ltac status_400 lemma rejects :=
  split;
  [ intros Hst;
    let rest := fresh "rest" in
    let HR := fresh "HR" in
    match goal with
    | Hst : status_of (fst (?h ?s)) = 400 |- _ =>
        destruct (lemma s) as (rest & _ & _ & _ & HR)
    end;
    cbv beta in HR;
    repeat match goal with
           | HR : _ \/ _ |- _ => destruct HR as [HR|HR]
           | HR : exists _, _ |- _ => destruct HR as [? HR]
           | HR : invalid_id _ = true /\ _ |- _ =>
               destruct HR as [HR _]; exact (invalid_id_true_length _ HR)
           end;
    rewrite HR in Hst; discriminate
  | intros Hlen; now apply rejects ].

(** X5. For the eight handlers that check the id, in every state and
    whatever the host answers: the answer has status 400 exactly when the
    id is not 11 characters long.  A failure of the backend, of the
    platform or of the disk never shows as a 400. *)
Theorem status_400_iff_bad_length :
  forall (H : Host) (videoId : string) (s : State H),
    (status_of (fst (ytdlp_audio_url videoId s)) = 400 <-> String.length videoId <> 11) /\
    (status_of (fst (ytdlp_stream videoId s)) = 400 <-> String.length videoId <> 11) /\
    (status_of (fst (ytdlp_download videoId s)) = 400 <-> String.length videoId <> 11) /\
    (status_of (fst (playdl_audio_url videoId s)) = 400 <-> String.length videoId <> 11) /\
    (status_of (fst (playdl_stream videoId s)) = 400 <-> String.length videoId <> 11) /\
    (status_of (fst (playdl_download videoId s)) = 400 <-> String.length videoId <> 11) /\
    (status_of (fst (innertube_audio_url videoId s)) = 400 <-> String.length videoId <> 11) /\
    (status_of (fst (innertube_stream videoId s)) = 400 <-> String.length videoId <> 11).
Proof.
  intros H videoId s.
  destruct (checking_handlers_reject H) as (R1 & R2 & R3 & R4 & R5 & R6 & R7 & R8).
  pose proof (@ytdlp_download_handles H videoId) as Hd. cbv zeta in Hd.
  split; [status_400 (@ytdlp_audio_url_handles H videoId) R1|].
  split; [status_400 (@ytdlp_stream_handles H videoId) R2|].
  split; [status_400 Hd R3|].
  split; [status_400 (@playdl_audio_url_handles H videoId) R4|].
  split; [status_400 (@playdl_stream_handles H videoId) R5|].
  split; [status_400 (@playdl_download_handles H videoId) R6|].
  split; [status_400 (@innertube_audio_url_handles H videoId) R7|].
  status_400 (@innertube_stream_handles H videoId) R8.
Qed.

(** X6. Whatever the host does, the download handler of the yt-dlp variant
    keeps to the canonical file of the id: the only file it ever sends is
    that one; a rename it makes moves a listed file whose name starts with
    the id, and whose path is another one, onto the canonical path; it lists
    no directory but the downloads directory; its yt-dlp calls ask for mp3
    audio of the watch URL of that id; and it leaves the session variable as
    it is. *)
Theorem download_keeps_to_canonical_file :
  forall (H : Host) (videoId : string) (s : State H),
    exists rest,
      log (snd (ytdlp_download videoId s)) = (log s ++ rest)%list /\
      yt (snd (ytdlp_download videoId s)) = yt s /\
      (forall p, fst (ytdlp_download videoId s) = SendFile p -> p = canonical H videoId) /\
      (forall a b, In (CallRenameSync a b) rest ->
         b = canonical H videoId /\ a <> b /\
         exists f, String.prefix videoId f = true /\
                   a = path_join H (DOWNLOADS_DIR H) f) /\
      (forall d, In (CallReaddirSync d) rest -> d = DOWNLOADS_DIR H) /\
      (forall u o, In (CallYtdlp u o) rest ->
         u = watch_url videoId /\ extractAudio o = true /\
         audioFormat o = Some "mp3" /\ getUrl o = false).
Proof.
  intros H videoId s.
  destruct (@ytdlp_download_handles H videoId s) as (rest & Hl & Hq & Hy & Hr).
  exists rest. rewrite Forall_forall in Hq. repeat split; auto.
  - intros p Hp. rewrite Hp in Hr.
    destruct Hr as [[_ Hr]|[Hr|[Hr|Hr]]]; congruence.
  - destruct (Hq _ H0) as [Hc|[(p & _ & _ & Hc)|[Hc|[Hc|(p & _ & _ & Hc)]]]];
      congruence.
  - destruct (Hq _ H0) as [Hc|[(p & _ & _ & Hc)|[Hc|[Hc|(p & _ & Hn & Hc)]]]];
      try discriminate. injection Hc as -> ->. exact Hn.
  - destruct (Hq _ H0) as [Hc|[(p & _ & _ & Hc)|[Hc|[Hc|(p & Hl' & _ & Hc)]]]];
      try discriminate. injection Hc as -> ->. exact Hl'.
  - intros d Hd. destruct (Hq _ Hd) as [Hc|[(p & _ & _ & Hc)|[Hc|[Hc|(p & _ & _ & Hc)]]]];
      congruence.
  - destruct (Hq _ H0) as [Hc|[(p & _ & _ & Hc)|[Hc|[Hc|(p & _ & _ & Hc)]]]];
      congruence.
  - destruct (Hq _ H0) as [Hc|[(p & _ & _ & Hc)|[Hc|[Hc|(p & _ & _ & Hc)]]]];
      try discriminate. now injection Hc as -> ->.
  - destruct (Hq _ H0) as [Hc|[(p & _ & _ & Hc)|[Hc|[Hc|(p & _ & _ & Hc)]]]];
      try discriminate. now injection Hc as -> ->.
  - destruct (Hq _ H0) as [Hc|[(p & _ & _ & Hc)|[Hc|[Hc|(p & _ & _ & Hc)]]]];
      try discriminate. now injection Hc as -> ->.
Qed.

(** ** The resolving handlers agree *)

(** X7. In the yt-dlp variant, /api/stream redirects to the very URL that
    /api/audio-url answers with: from the same state both make the same
    single yt-dlp call and end in the same state, and one answers 200 with
    [u] exactly when the other redirects to [u]. *)
Theorem ytdlp_stream_redirects_to_audio_url :
  forall (H : Host) (videoId : string) (s : State H),
    snd (ytdlp_stream videoId s) = snd (ytdlp_audio_url videoId s) /\
    (forall u, fst (ytdlp_audio_url videoId s) = Json 200 (UrlBody u videoId) <->
               fst (ytdlp_stream videoId s) = Redirect u) /\
    (String.length videoId = 11 ->
     log (snd (ytdlp_audio_url videoId s)) =
       (log s ++ [CallYtdlp (watch_url videoId) url_options])%list).
Proof.
  intros H videoId s. unfold ytdlp_stream, ytdlp_audio_url.
  destruct (invalid_id videoId) eqn:Hv.
  - cbn. repeat split; try discriminate.
    intros Hlen. rewrite (invalid_id_false _ Hlen) in Hv. discriminate.
  - unfold try_catch, bind, call, ret.
    destruct (ytdlp H (watch_url videoId) url_options (world s)) as [[r|e] w]; cbn.
    + repeat split; intros [= <-]; reflexivity.
    + repeat split; discriminate.
Qed.

Section InnertubeAgree.
Variable H : Host.

(** The answer of /api/audio-url with a ready session, the request for the
    metadata failing or not. *)
Lemma audio_url_ready (videoId : string) (s : State H) (c : Client H) :
  String.length videoId = 11 -> yt s = Some c ->
  innertube_audio_url videoId s =
  match getBasicInfo H c videoId (world s) with
  | (Threw e, w) =>
      (Json 500 (ErrorBody e),
       {| world := w; yt := Some c; log := log s ++ [CallGetBasicInfo c videoId] |})
  | (Ok info, w) =>
      let s1 := {| world := w; yt := Some c;
                   log := log s ++ [CallGetBasicInfo c videoId] |} in
      match innertube_select info with
      | None => (Json 500 (ErrorBody "No audio format found"), s1)
      | Some f =>
          match Innertube.decipher f with
          | Some d =>
              (match d (session_player H c) with
               | Ok u => Json 200 (UrlBody u videoId)
               | Threw e => Json 500 (ErrorBody e)
               end,
               record (CallDecipher (session_player H c)) s1)
          | None =>
              if JS.truthy (Innertube.url f)
              then (Json 200 (UrlBody (JS.or_else (Innertube.url f) "") videoId), s1)
              else (Json 500 (ErrorBody "No audio format found"), s1)
          end
      end
  end.
Proof.
  intros Hlen Hy.
  destruct (getBasicInfo H c videoId (world s)) as [[info|e] w] eqn:Hinfo.
  - exact (audio_url_resolved videoId s Hlen Hy Hinfo).
  - unfold innertube_audio_url. rewrite (invalid_id_false _ Hlen).
    unfold try_catch, bind. rewrite (initYT_ready _ Hy). cbn [deref ret].
    unfold call. now rewrite Hinfo, Hy.
Qed.

Lemma stream_ready (videoId : string) (s : State H) (c : Client H) :
  String.length videoId = 11 -> yt s = Some c ->
  innertube_stream videoId s =
  match getBasicInfo H c videoId (world s) with
  | (Threw e, w) =>
      (Send 500 ("Stream error: " ++ e),
       {| world := w; yt := Some c; log := log s ++ [CallGetBasicInfo c videoId] |})
  | (Ok info, w) =>
      let s1 := {| world := w; yt := Some c;
                   log := log s ++ [CallGetBasicInfo c videoId] |} in
      match innertube_select info with
      | None => (Send 500 "Stream error: No audio format available", s1)
      | Some f =>
          match Innertube.decipher f with
          | Some d =>
              (match d (session_player H c) with
               | Ok u => Redirect u
               | Threw e => Send 500 ("Stream error: " ++ e)
               end,
               record (CallDecipher (session_player H c)) s1)
          | None =>
              if JS.truthy (Innertube.url f)
              then (Redirect (JS.or_else (Innertube.url f) ""), s1)
              else (Send 500 "Stream error: Cannot get audio URL", s1)
          end
      end
  end.
Proof.
  intros Hlen Hy.
  destruct (getBasicInfo H c videoId (world s)) as [[info|e] w] eqn:Hinfo.
  - exact (stream_resolved videoId s Hlen Hy Hinfo).
  - unfold innertube_stream. rewrite (invalid_id_false _ Hlen).
    unfold try_catch, bind. rewrite (initYT_ready _ Hy). cbn [deref ret].
    unfold call. now rewrite Hinfo, Hy.
Qed.

Lemma bind_ok {A B} (m : M H A) (k : A -> M H B) (s s1 : State H) (a : A) :
  m s = (Ok a, s1) -> bind m k s = k a s1.
Proof. intros Hm. unfold bind. now rewrite Hm. Qed.

(** A request that has to create the session goes on as a request made in
    the state the creation leaves. *)
Lemma audio_url_after_init (videoId : string) (s s1 : State H)
    (v : option (Client H)) :
  String.length videoId = 11 -> initYT s = (Ok v, s1) ->
  innertube_audio_url videoId s = innertube_audio_url videoId s1.
Proof.
  intros Hlen Hinit. destruct (initYT_returns_session _ Hinit) as [Hv Hy].
  destruct v as [c|]; [|congruence].
  unfold innertube_audio_url. rewrite (invalid_id_false _ Hlen).
  unfold try_catch.
  now rewrite (@bind_ok _ _ (@initYT H) _ s s1 (Some c) Hinit),
    (@bind_ok _ _ (@initYT H) _ s1 s1 (Some c) (initYT_ready _ Hy)).
Qed.

Lemma stream_after_init (videoId : string) (s s1 : State H) (v : option (Client H)) :
  String.length videoId = 11 -> initYT s = (Ok v, s1) ->
  innertube_stream videoId s = innertube_stream videoId s1.
Proof.
  intros Hlen Hinit. destruct (initYT_returns_session _ Hinit) as [Hv Hy].
  destruct v as [c|]; [|congruence].
  unfold innertube_stream. rewrite (invalid_id_false _ Hlen).
  unfold try_catch.
  now rewrite (@bind_ok _ _ (@initYT H) _ s s1 (Some c) Hinit),
    (@bind_ok _ _ (@initYT H) _ s1 s1 (Some c) (initYT_ready _ Hy)).
Qed.

Lemma audio_url_init_failed (videoId : string) (s s1 : State H) (e : string) :
  String.length videoId = 11 -> initYT s = (Threw e, s1) ->
  innertube_audio_url videoId s = (Json 500 (ErrorBody e), s1) /\
  innertube_stream videoId s = (Send 500 ("Stream error: " ++ e), s1).
Proof.
  intros Hlen Hinit. unfold innertube_audio_url, innertube_stream.
  rewrite (invalid_id_false _ Hlen). unfold try_catch, bind. now rewrite Hinit.
Qed.

End InnertubeAgree.

Section InnertubeSession.
Variable H : Host.

Lemma creations_snoc_other (l : list (Call H)) (c : Call H) :
  session_call c = true -> c <> CallCreate ->
  creations (l ++ [c]) = creations l.
Proof.
  intros _ Hc. rewrite creations_app. destruct c; cbn; try lia. congruence.
Qed.

(** With a ready session, a valid request creates no client and leaves the
    session as it is. *)
Lemma ready_request (videoId : string) (s : State H) (c : Client H) :
  String.length videoId = 11 -> yt s = Some c ->
  (creations (log (snd (innertube_audio_url videoId s))) = creations (log s) /\
   yt (snd (innertube_audio_url videoId s)) = Some c) /\
  (creations (log (snd (innertube_stream videoId s))) = creations (log s) /\
   yt (snd (innertube_stream videoId s)) = Some c).
Proof.
  intros Hlen Hy.
  rewrite (audio_url_ready _ _ Hlen Hy), (stream_ready _ _ Hlen Hy).
  destruct (getBasicInfo H c videoId (world s)) as [[info|e] w]; cbn zeta.
  - destruct (innertube_select info) as [f|].
    + destruct (Innertube.decipher f) as [d|].
      * unfold record. cbn [fst snd log yt].
        rewrite !creations_app. cbn. repeat split; lia.
      * destruct (JS.truthy (Innertube.url f)); cbn [fst snd log yt];
          rewrite !creations_app; cbn; repeat split; lia.
    + cbn [fst snd log yt]. rewrite !creations_app. cbn. repeat split; lia.
  - cbn [fst snd log yt]. rewrite !creations_app. cbn. repeat split; lia.
Qed.

End InnertubeSession.

(** X8. In the Innertube variant, /api/stream redirects to the very URL that
    /api/audio-url answers with: from the same state both end in the same
    state (same calls to the platform, same session), and one answers 200
    with [u] exactly when the other redirects to [u]. *)
Theorem innertube_stream_redirects_to_audio_url :
  forall (H : Host) (videoId : string) (s : State H),
    snd (innertube_stream videoId s) = snd (innertube_audio_url videoId s) /\
    (forall u, fst (innertube_audio_url videoId s) = Json 200 (UrlBody u videoId) <->
               fst (innertube_stream videoId s) = Redirect u).
Proof.
  intros H videoId s.
  destruct (Nat.eq_dec (String.length videoId) 11) as [Hlen|Hlen].
  - destruct (initYT s) as [[v|e] s1] eqn:Hinit.
    + rewrite (audio_url_after_init videoId s Hlen Hinit), (stream_after_init videoId s Hlen Hinit).
      destruct (initYT_returns_session _ Hinit) as [Hv Hy].
      destruct v as [c|]; [|congruence].
      rewrite (audio_url_ready _ _ Hlen Hy), (stream_ready _ _ Hlen Hy).
      destruct (getBasicInfo H c videoId (world s1)) as [[info|e] w]; cbn zeta.
      * destruct (innertube_select info) as [f|].
        -- destruct (Innertube.decipher f) as [d|].
           ++ destruct (d (session_player H c)); cbn [fst snd];
                repeat split; try discriminate; intros [= <-]; reflexivity.
           ++ destruct (JS.truthy (Innertube.url f)); cbn [fst snd];
                repeat split; try discriminate; intros [= <-]; reflexivity.
        -- cbn [fst snd]. repeat split; discriminate.
      * cbn [fst snd]. repeat split; discriminate.
    + destruct (audio_url_init_failed videoId s Hlen Hinit) as [-> ->]. cbn [fst snd].
      repeat split; discriminate.
  - unfold innertube_stream, innertube_audio_url.
    rewrite (invalid_id_true _ Hlen). cbn. repeat split; discriminate.
Qed.

(** X9. Served one after the other, requests never replace a session: when
    the session variable holds a client, [initYT] returns it without any
    call, the startup path makes no call, and after any request to the
    three id-taking handlers of the Innertube variant the variable holds
    the same client and no creation call has been added to the log. *)
Theorem session_is_kept :
  forall (H : Host) (videoId : string) (s : State H) (c : Client H),
    yt s = Some c ->
    initYT s = (Ok (Some c), s) /\
    snd (startup s) = s /\
    (yt (snd (innertube_audio_url videoId s)) = Some c /\
     creations (log (snd (innertube_audio_url videoId s))) = creations (log s)) /\
    (yt (snd (innertube_stream videoId s)) = Some c /\
     creations (log (snd (innertube_stream videoId s))) = creations (log s)) /\
    snd (innertube_download videoId s) = s.
Proof.
  intros H videoId s c Hy. split; [now apply initYT_ready|].
  split; [unfold startup, boot; now rewrite (initYT_ready _ Hy)|].
  destruct (Nat.eq_dec (String.length videoId) 11) as [Hlen|Hlen].
  - destruct (ready_request videoId s Hlen Hy) as [[Ha1 Ha2] [Hs1 Hs2]].
    repeat split; assumption.
  - unfold innertube_stream, innertube_audio_url.
    rewrite (invalid_id_true _ Hlen). cbn. repeat split; assumption.
Qed.

Lemma session_is_kept_witness :
  let s := Demo.state "mp3" [Demo.bare_audio] [] [Ok 8] (Some 7) [] in
  initYT s = (Ok (Some 7), s) /\
  yt (snd (innertube_stream "dQw4w9WgXcQ" s)) = Some 7.
Proof.
  destruct (@session_is_kept (Demo.host "mp3" [Demo.bare_audio]) "dQw4w9WgXcQ"
              (Demo.state "mp3" [Demo.bare_audio] [] [Ok 8] (Some 7) []) 7 eq_refl)
    as (Hi & _ & _ & [Hs _] & _).
  split; [exact Hi|exact Hs].
Defined.

(** X10. A request with a valid id to /api/audio-url or /api/stream of the
    Innertube variant, served alone, calls the creation of a client exactly
    once when the session is unset and not at all when it is set; and when
    it is answered with a URL, the session is set afterwards. *)
Theorem valid_request_creates_once_if_unset :
  forall (H : Host) (videoId : string) (s : State H),
    String.length videoId = 11 ->
    let due := match yt s with None => 1 | Some _ => 0 end in
    creations (log (snd (innertube_audio_url videoId s))) = creations (log s) + due /\
    creations (log (snd (innertube_stream videoId s))) = creations (log s) + due /\
    (forall u, fst (innertube_audio_url videoId s) = Json 200 (UrlBody u videoId) ->
       exists c, yt (snd (innertube_audio_url videoId s)) = Some c) /\
    (forall u, fst (innertube_stream videoId s) = Redirect u ->
       exists c, yt (snd (innertube_stream videoId s)) = Some c).
Proof.
  intros H videoId s Hlen due. subst due.
  destruct (yt s) as [c|] eqn:Hy.
  - destruct (ready_request videoId s Hlen Hy) as [[Ha1 Ha2] [Hs1 Hs2]].
    rewrite Ha1, Hs1, Nat.add_0_r. repeat split; eauto.
  - destruct (Innertube_create H (world s)) as [[c|e] w] eqn:Hc.
    + pose proof (initYT_created _ Hy Hc) as Hinit.
      rewrite (audio_url_after_init videoId s Hlen Hinit), (stream_after_init videoId s Hlen Hinit).
      destruct (@ready_request H videoId
                  {| world := w; yt := Some c; log := log s ++ [CallCreate] |} c
                  Hlen eq_refl) as [[Ha1 Ha2] [Hs1 Hs2]].
      rewrite Ha1, Hs1. cbn [log]. rewrite creations_app. cbn.
      repeat split; eauto.
    + pose proof (initYT_failed _ Hy Hc) as Hinit.
      destruct (audio_url_init_failed videoId s Hlen Hinit) as [-> ->]. cbn [fst snd log].
      rewrite creations_app. cbn. repeat split; discriminate.
Qed.

Lemma valid_request_creates_once_if_unset_witness :
  creations (log (snd (innertube_audio_url "dQw4w9WgXcQ"
                         (Demo.fresh [] [Ok 7] "mp3" [Demo.bare_audio])))) = 0 + 1.
Proof.
  exact (proj1 (@valid_request_creates_once_if_unset
                  (Demo.host "mp3" [Demo.bare_audio]) "dQw4w9WgXcQ"
                  (Demo.fresh [] [Ok 7] "mp3" [Demo.bare_audio]) eq_refl)).
Defined.

(** ** Overlapping calls of [initYT]: what every schedule keeps *)

Section Schedules.
Variable H : Host.

Lemma waiting_app (l l' : list (Task H)) : waiting (l ++ l') = waiting l + waiting l'.
Proof. unfold waiting. now rewrite filter_app, length_app. Qed.

Lemma waiting_cons (t : Task H) (l : list (Task H)) :
  waiting (t :: l) = is_ready t + waiting l.
Proof. unfold waiting. now destruct t. Qed.

Lemma set_task_at (l : list (Task H)) (i : nat) (t0 t : Task H) :
  nth_error l i = Some t0 ->
  exists l1 l2, l = (l1 ++ t0 :: l2)%list /\ set_task i t l = (l1 ++ t :: l2)%list.
Proof.
  intros Hn. destruct (nth_error_split l i Hn) as (l1 & l2 & -> & <-).
  exists l1, l2. split; [reflexivity|apply set_task_middle].
Qed.

Lemma set_task_waiting (l : list (Task H)) (i : nat) (t0 t : Task H) :
  nth_error l i = Some t0 ->
  waiting (set_task i t l) + is_ready t0 = waiting l + is_ready t.
Proof.
  intros Hn. destruct (set_task_at l i t Hn) as (l1 & l2 & -> & ->).
  rewrite !waiting_app, !waiting_cons. lia.
Qed.

Lemma set_task_length (l : list (Task H)) (i : nat) (t : Task H) :
  length (set_task i t l) = length l.
Proof.
  revert i. induction l as [|x l IH]; intros [|i]; cbn; trivial. now rewrite IH.
Qed.

Lemma set_task_Forall (P : Task H -> Prop) (l : list (Task H)) (i : nat) (t : Task H) :
  Forall P l -> P t -> Forall P (set_task i t l).
Proof.
  intros Hl Ht. revert i. induction Hl as [|x l Hx Hl IH]; intros [|i]; cbn;
    constructor; auto.
Qed.

Lemma step_inv (c0 n : nat) (e : Event) (x x' : Sys H) :
  step e x = Some x' -> Inv c0 n x -> Inv c0 n x'.
Proof.
  intros Hs (Hb & Hc & Hr & Hn). unfold Inv. destruct e as [i|i]; cbn in Hs.
  - destruct (nth_error (tasks x) i) as [[| | |]|] eqn:Ht; try discriminate.
    destruct (yt (st x)) as [c|] eqn:Hy.
    + injection Hs as <-. cbn [st tasks].
      pose proof (set_task_waiting (tasks x) i (Returned (Some c)) Ht) as Hw.
      cbn [is_ready] in Hw. repeat split; trivial.
      * lia.
      * apply set_task_Forall; [exact Hr|discriminate].
      * now rewrite set_task_length.
    + destruct (call_create_state (st x)) as [_ Hl].
      destruct (call CallCreate (Innertube_create H) (st x)) as [p s1].
      injection Hs as <-. cbn [st tasks snd] in *. rewrite Hl, creations_app.
      pose proof (set_task_waiting (tasks x) i (Awaiting p) Ht) as Hw.
      cbn [is_ready] in Hw.
      change (creations [@CallCreate H]) with 1. repeat split.
      * lia.
      * lia.
      * apply set_task_Forall; [exact Hr|discriminate].
      * now rewrite set_task_length.
  - destruct (nth_error (tasks x) i) as [[|[c|e]| |]|] eqn:Ht; try discriminate;
      injection Hs as <-; cbn [st tasks snd set_yt log yt].
    + pose proof (set_task_waiting (tasks x) i (Returned (Some c)) Ht) as Hw.
      cbn [is_ready] in Hw. repeat split; trivial.
      * lia.
      * apply set_task_Forall; [exact Hr|discriminate].
      * now rewrite set_task_length.
    + pose proof (set_task_waiting (tasks x) i (Failed e) Ht) as Hw.
      cbn [is_ready] in Hw. repeat split; trivial.
      * lia.
      * apply set_task_Forall; [exact Hr|discriminate].
      * now rewrite set_task_length.
Qed.

Lemma run_inv (c0 n : nat) (es : list Event) (x x' : Sys H) :
  run es x = Some x' -> Inv c0 n x -> Inv c0 n x'.
Proof.
  revert x. induction es as [|e es IH]; intros x Hr Hi; cbn in Hr.
  - now injection Hr as <-.
  - destruct (step e x) as [x1|] eqn:Hs; [|discriminate].
    apply (IH x1 Hr). eapply step_inv; eassumption.
Qed.

(** A session that is set stays set, and then nothing is created. *)
Lemma step_set (e : Event) (x x' : Sys H) :
  step e x = Some x' -> yt (st x) <> None ->
  yt (st x') <> None /\ creations (log (st x')) = creations (log (st x)).
Proof.
  intros Hs Hy. destruct e as [i|i]; cbn in Hs.
  - destruct (nth_error (tasks x) i) as [[| | |]|]; try discriminate.
    destruct (yt (st x)) as [c|] eqn:Hc; [|congruence].
    injection Hs as <-. cbn. rewrite Hc. split; [discriminate|reflexivity].
  - destruct (nth_error (tasks x) i) as [[|[c|e]| |]|]; try discriminate;
      injection Hs as <-; cbn; split; trivial; discriminate.
Qed.

Lemma run_set (es : list Event) (x x' : Sys H) :
  run es x = Some x' -> yt (st x) <> None ->
  yt (st x') <> None /\ creations (log (st x')) = creations (log (st x)).
Proof.
  revert x. induction es as [|e es IH]; intros x Hr Hy; cbn in Hr.
  - injection Hr as <-. now split.
  - destruct (step e x) as [x1|] eqn:Hs; [|discriminate].
    assert (yt (st x1) <> None /\ creations (log (st x1)) = creations (log (st x)))
      as [Hy1 Hc1] by (eapply step_set; eassumption).
    destruct (IH x1 Hr Hy1) as [Hy2 Hc2]. split; [exact Hy2|congruence].
Qed.

Lemma pending_inv (n : nat) (s : State H) : Inv (creations (log s)) n (pending n s).
Proof.
  unfold Inv, pending. cbn [st tasks]. repeat split.
  - unfold waiting. rewrite forallb_filter_id.
    + rewrite repeat_length. lia.
    + apply forallb_forall. intros t Ht. now rewrite (repeat_spec _ _ _ Ht).
  - lia.
  - apply Forall_forall. intros t Ht. rewrite (repeat_spec _ _ _ Ht). discriminate.
  - apply repeat_length.
Qed.

End Schedules.

(** X11. Whatever the order in which the steps of [N] calls of [initYT] are
    taken: at most [N] creation calls are made; no call ever returns
    [null]; and if the session was set before the first step, it is set at
    the end and no creation call is made at all. *)
Theorem every_schedule_is_bounded :
  forall (H : Host) (N : nat) (s : State H) (es : list Event) (x : Sys H),
    run es (pending N s) = Some x ->
    creations (log s) <= creations (log (st x)) <= creations (log s) + N /\
    (forall i, nth_error (tasks x) i <> Some (Returned None)) /\
    length (tasks x) = N /\
    (yt s <> None ->
     yt (st x) <> None /\ creations (log (st x)) = creations (log s)).
Proof.
  intros H N s es x Hrun.
  assert (Hinv : Inv (creations (log s)) N x)
    by (eapply run_inv; [exact Hrun|apply pending_inv]).
  destruct Hinv as (Hb & Hc & Hr & Hn).
  repeat split; trivial.
  - lia.
  - intros i Hi. apply nth_error_In in Hi.
    rewrite Forall_forall in Hr. now apply (Hr _ Hi).
  - eapply run_set; [exact Hrun|]. cbn. assumption.
  - assert (yt (st x) <> None /\ creations (log (st x)) = creations (log (st (pending N s))))
      as [_ Hcr] by (eapply run_set; [exact Hrun|cbn; assumption]).
    exact Hcr.
Qed.

Lemma every_schedule_is_bounded_witness :
  exists x,
    run [Enter 1; Enter 0; Resume 0; Enter 2; Resume 1]
        (pending 3 (Demo.fresh [] [Ok 7; Threw "down"] "mp3" [])) = Some x /\
    creations (log (st x)) <= 0 + 3.
Proof.
  eexists. split; [reflexivity|].
  eapply (@every_schedule_is_bounded (Demo.host "mp3" []) 3
            (Demo.fresh [] [Ok 7; Threw "down"] "mp3" [])
            [Enter 1; Enter 0; Resume 0; Enter 2; Resume 1]).
  reflexivity.
Defined.

(** X12. When the first call of [initYT] has run to its end and got a client
    before any other call starts, no later call creates a client, in
    whatever order the later steps are taken: one creation call in all, and
    the session is set at the end. *)
Theorem first_call_alone_then_one_creation :
  forall (H : Host) (N : nat) (s : State H) (c : Client H) (w : World H)
         (es : list Event) (x : Sys H),
    yt s = None ->
    Innertube_create H (world s) = (Ok c, w) ->
    run (Enter 0 :: Resume 0 :: es) (pending (S N) s) = Some x ->
    creations (log (st x)) = creations (log s) + 1 /\
    yt (st x) <> None.
Proof.
  intros H N s c w es x Hy Hc Hrun.
  cbn [run pending repeat] in Hrun.
  rewrite enter_unset in Hrun by (cbn; trivial). unfold call in Hrun.
  unfold pending in Hrun. cbn [st tasks world yt log repeat] in Hrun. rewrite Hc in Hrun.
  cbn [fst snd set_task step nth_error tasks st set_yt world yt log] in Hrun.
  match type of Hrun with
  | run es ?x1 = _ =>
      assert (Hset : yt (st x) <> None /\
                     creations (log (st x)) = creations (log (st x1)))
        by (eapply run_set; [exact Hrun|cbn; discriminate])
  end.
  destruct Hset as [Hset Hcr].
  cbn [st log] in Hcr. rewrite creations_app in Hcr.
  change (creations [@CallCreate H]) with 1 in Hcr. now split.
Qed.

Lemma first_call_alone_then_one_creation_witness :
  exists x,
    run [Enter 0; Resume 0; Enter 2; Enter 1]
        (pending 3 (Demo.fresh [] [Ok 7; Ok 8] "mp3" [])) = Some x /\
    creations (log (st x)) = 0 + 1.
Proof.
  eexists. split; [reflexivity|].
  eapply (@first_call_alone_then_one_creation (Demo.host "mp3" []) 2
            (Demo.fresh [] [Ok 7; Ok 8] "mp3" []) 7
            {| Demo.disk := []; Demo.supply := [Ok 8] |} [Enter 2; Enter 1]);
    reflexivity.
Defined.

(** ** Which URL is answered *)

Lemma truthy_some (o : option string) :
  JS.truthy o = true <-> exists u, o = Some u /\ u <> "".
Proof.
  destruct o as [[|ch rest]|]; cbn; split; try discriminate.
  - intros (u & [= <-] & Hu). congruence.
  - intros _. exists (String ch rest). split; [reflexivity|discriminate].
  - reflexivity.
  - intros (u & Hu & _). discriminate.
Qed.

(** X13. play-dl variant, metadata fetched for a valid id: /api/audio-url
    answers 200 with [u] exactly when the first audio format of maximal
    bitrate of the metadata (a present bitrate counting as itself, a missing
    one as 0) carries the non-empty URL [u]; when that format carries no
    URL, or an empty one, the answer is 500 "No audio format found"
    whatever the other audio formats carry, and so it is when there is no
    audio format.  The metadata request is its only call. *)
Theorem playdl_audio_url_answers_selected_url :
  forall (H : Host) (videoId : string) (s : State H) (info : PlayDl.Info) (w : World H),
    String.length videoId = 11 ->
    video_info H (watch_url videoId) (world s) = (Ok info, w) ->
    snd (playdl_audio_url videoId s) =
      {| world := w; yt := yt s; log := log s ++ [CallVideoInfo (watch_url videoId)] |} /\
    (forall u, fst (playdl_audio_url videoId s) = Json 200 (UrlBody u videoId) <->
       exists i f,
         FirstMaximalAudio PlayDl.mimeType PlayDl.bitrate (PlayDl.format info) i f /\
         PlayDl.url f = Some u /\ u <> "") /\
    (forall i f,
       FirstMaximalAudio PlayDl.mimeType PlayDl.bitrate (PlayDl.format info) i f ->
       PlayDl.url f = None \/ PlayDl.url f = Some "" ->
       fst (playdl_audio_url videoId s) = Json 500 (ErrorBody "No audio format found")) /\
    ((forall f, In f (PlayDl.format info) -> ~ HasAudio (PlayDl.mimeType f)) ->
     fst (playdl_audio_url videoId s) = Json 500 (ErrorBody "No audio format found")) /\
    (fst (playdl_audio_url videoId s) = Json 500 (ErrorBody "No audio format found") <->
       ~ exists i f u,
           FirstMaximalAudio PlayDl.mimeType PlayDl.bitrate (PlayDl.format info) i f /\
           PlayDl.url f = Some u /\ u <> "").
Proof.
  intros H videoId s info w Hlen Hinfo.
  unfold playdl_audio_url. rewrite (invalid_id_false _ Hlen).
  unfold try_catch, bind, call. rewrite Hinfo. cbv zeta.
  pose proof (pick_audio_first_maximal PlayDl.mimeType PlayDl.bitrate (PlayDl.format info))
    as Hsel.
  pose proof (pick_audio_none PlayDl.mimeType PlayDl.bitrate (PlayDl.format info)) as Hnone.
  unfold playdl_select.
  destruct (pick_audio PlayDl.mimeType PlayDl.bitrate (PlayDl.format info)) as [g|].
  - destruct (proj1 (Hsel g) eq_refl) as [ig Hg].
    assert (Honly : forall i f,
              FirstMaximalAudio PlayDl.mimeType PlayDl.bitrate (PlayDl.format info) i f ->
              f = g).
    { intros i f Hf. assert (Some g = Some f) as [= ->] by (apply Hsel; now exists i).
      reflexivity. }
    cbn [opt_chain].
    destruct (JS.truthy (PlayDl.url g)) eqn:Ht.
    + apply truthy_some in Ht. destruct Ht as (u0 & Hu0 & Hne).
      cbn [ret fst snd]. rewrite Hu0.
      assert (JS.or_else (Some u0) "" = u0) as ->
        by (destruct u0; [congruence|reflexivity]).
      split; [reflexivity|]. split; [|split; [|split]].
      * intros u. split.
        -- intros [= <-]. now exists ig, g.
        -- intros (i & f & Hf & Hu & _). rewrite (Honly i f Hf) in Hu. congruence.
      * intros i f Hf Hu. rewrite (Honly i f Hf) in Hu.
        destruct Hu as [Hu|Hu]; congruence.
      * intros Hno. exfalso. destruct Hg as (Hn & Ha & _).
        apply (Hno g); [now apply nth_error_In in Hn|exact Ha].
      * split; [discriminate|]. intros Hn. exfalso. apply Hn. now exists ig, g, u0.
    + cbn [throw fst snd].
      assert (Hnot : forall u, PlayDl.url g = Some u -> u <> "" -> False).
      { intros u Hu Hne.
        assert (JS.truthy (PlayDl.url g) = true) by (apply truthy_some; eauto).
        congruence. }
      split; [reflexivity|]. split; [|split; [|split]].
      * intros u. split; [discriminate|].
        intros (i & f & Hf & Hu & Hne). rewrite (Honly i f Hf) in Hu.
        now destruct (Hnot u Hu Hne).
      * reflexivity.
      * reflexivity.
      * split; [|reflexivity]. intros _ (i & f & u & Hf & Hu & Hne).
        rewrite (Honly i f Hf) in Hu. exact (Hnot u Hu Hne).
  - assert (Hnone' : forall i f,
              ~ FirstMaximalAudio PlayDl.mimeType PlayDl.bitrate (PlayDl.format info) i f).
    { intros i f Hf. assert (None = Some f) by (apply Hsel; now exists i). discriminate. }
    cbn [opt_chain JS.truthy throw fst snd].
    split; [reflexivity|]. split; [|split; [|split]].
    + intros u. split; [discriminate|]. intros (i & f & Hf & _). now destruct (Hnone' i f).
    + reflexivity.
    + reflexivity.
    + split; [|reflexivity]. intros _ (i & f & u & Hf & _). now destruct (Hnone' i f).
Qed.

Lemma playdl_audio_url_answers_selected_url_witness :
  fst (playdl_audio_url "dQw4w9WgXcQ"
         (Demo.playdl_fresh
            [Demo.video_at 1000 "V"; Demo.audio_at 128 "U2"; Demo.audio_at 160 "U1";
             Demo.audio_unrated "U4"; Demo.audio_at 160 "U3"]))
  = Json 200 (UrlBody "U1" "dQw4w9WgXcQ").
Proof.
  apply (@playdl_audio_url_answers_selected_url
           (Demo.playdl_host
              [Demo.video_at 1000 "V"; Demo.audio_at 128 "U2"; Demo.audio_at 160 "U1";
               Demo.audio_unrated "U4"; Demo.audio_at 160 "U3"])
           "dQw4w9WgXcQ"
           (Demo.playdl_fresh
              [Demo.video_at 1000 "V"; Demo.audio_at 128 "U2"; Demo.audio_at 160 "U1";
               Demo.audio_unrated "U4"; Demo.audio_at 160 "U3"])
           {| PlayDl.format :=
                [Demo.video_at 1000 "V"; Demo.audio_at 128 "U2"; Demo.audio_at 160 "U1";
                 Demo.audio_unrated "U4"; Demo.audio_at 160 "U3"] |}
           {| Demo.disk := []; Demo.supply := [] |} eq_refl eq_refl).
  destruct (proj1 (pick_audio_first_maximal PlayDl.mimeType PlayDl.bitrate
                     [Demo.video_at 1000 "V"; Demo.audio_at 128 "U2"; Demo.audio_at 160 "U1";
                      Demo.audio_unrated "U4"; Demo.audio_at 160 "U3"]
                     (Demo.audio_at 160 "U1")) eq_refl) as [i Hi].
  exists i, (Demo.audio_at 160 "U1").
  split; [exact Hi|split; [reflexivity|discriminate]].
Defined.

(** The format of highest bitrate has no URL: the answer is 500, although
    the next audio format has one. *)
Example playdl_audio_url_no_fallback :
  fst (playdl_audio_url "dQw4w9WgXcQ"
         (Demo.playdl_fresh [Demo.audio_at 128 "U2"; Demo.audio_without_url 160]))
  = Json 500 (ErrorBody "No audio format found").
Proof. reflexivity. Qed.

(** The later format has the higher bitrate: its URL is answered. *)
Example playdl_audio_url_later_higher :
  fst (playdl_audio_url "dQw4w9WgXcQ"
         (Demo.playdl_fresh [Demo.audio_unrated "U4"; Demo.audio_at 64 "U2";
                             Demo.audio_at 128 "U1"]))
  = Json 200 (UrlBody "U1" "dQw4w9WgXcQ").
Proof. reflexivity. Qed.

(** X14. Innertube variant, session ready and metadata fetched for a valid
    id: /api/audio-url answers 200 with [u] exactly when the selected format
    has a decipher function that returns [u] for the player of the session,
    or has no decipher function and carries the non-empty URL [u].  A
    decipher function that fails is not made up for by the URL of the
    format. *)
Theorem innertube_audio_url_answers_resolved_url :
  forall (H : Host) (videoId : string) (s : State H) (c : Client H)
         (info : IInfo H) (w : World H),
    String.length videoId = 11 ->
    yt s = Some c ->
    getBasicInfo H c videoId (world s) = (Ok info, w) ->
    forall u,
      fst (innertube_audio_url videoId s) = Json 200 (UrlBody u videoId) <->
      exists f, innertube_select info = Some f /\
        ((exists d, Innertube.decipher f = Some d /\ d (session_player H c) = Ok u) \/
         (Innertube.decipher f = None /\ Innertube.url f = Some u /\ u <> "")).
Proof.
  intros H videoId s c info w Hlen Hy Hinfo u.
  rewrite (audio_url_resolved videoId s Hlen Hy Hinfo). cbv zeta.
  destruct (innertube_select info) as [f|].
  - destruct (Innertube.decipher f) as [d|] eqn:Hd.
    + cbn [fst]. destruct (d (session_player H c)) as [u'|e] eqn:Hu; split.
      * intros [= <-]. exists f. split; trivial. left. now exists d.
      * intros (f' & [= <-] & [(d' & Hd' & Hu')|(Hd' & _)]); congruence.
      * discriminate.
      * intros (f' & [= <-] & [(d' & Hd' & Hu')|(Hd' & _)]); congruence.
    + destruct (JS.truthy (Innertube.url f)) eqn:Ht; cbn [fst]; split.
      * apply truthy_some in Ht. destruct Ht as (u0 & Hu0 & Hne). rewrite Hu0.
        assert (JS.or_else (Some u0) "" = u0) as ->
            by (destruct u0; [congruence|reflexivity]).
        intros [= <-]. exists f. split; trivial. right. now repeat split.
      * intros (f' & [= <-] & [(d' & Hd' & _)|(_ & Hu & Hne)]); [congruence|].
        rewrite Hu. destruct u; [congruence|reflexivity].
      * discriminate.
      * intros (f' & [= <-] & [(d' & Hd' & _)|(_ & Hu & Hne)]); [congruence|].
        assert (JS.truthy (Innertube.url f) = true) by (apply truthy_some; eauto).
        congruence.
  - split; [discriminate|intros (f & Hf & _); discriminate].
Qed.

Lemma innertube_audio_url_answers_resolved_url_witness :
  let f := {| Innertube.mime_type := Some "audio/mp4"; Innertube.bitrate := Some 128%Z;
              Innertube.url := Some "direct";
              Innertube.decipher := Some (fun _ : nat => Threw "cipher broke") |} in
  ~ fst (innertube_audio_url "dQw4w9WgXcQ" (Demo.state "mp3" [f] [] [] (Some 7) []))
    = Json 200 (UrlBody "direct" "dQw4w9WgXcQ").
Proof.
  intros f Hr.
  apply (@innertube_audio_url_answers_resolved_url (Demo.host "mp3" [f]) "dQw4w9WgXcQ"
           (Demo.state "mp3" [f] [] [] (Some 7) []) 7
           {| Innertube.streaming_data :=
                Some {| Innertube.adaptive_formats := Some [f] |} |}
           {| Demo.disk := []; Demo.supply := [] |} eq_refl eq_refl eq_refl "direct")
    in Hr.
  destruct Hr as (f' & [= <-] & [(d & [= <-] & Hd)|(Hd & _)]); discriminate.
Defined.

(** X15. Innertube variant, session ready and metadata fetched for a valid
    id: no format is selected exactly when the metadata has no
    [streaming_data], or no [adaptive_formats], or no format whose MIME type
    contains "audio"; then /api/audio-url answers 500 "No audio format
    found", /api/stream answers 500 "Stream error: No audio format
    available", and the metadata request is the only call made. *)
Theorem missing_metadata_is_no_audio_format :
  forall (H : Host) (videoId : string) (s : State H) (c : Client H)
         (info : IInfo H) (w : World H),
    String.length videoId = 11 ->
    yt s = Some c ->
    getBasicInfo H c videoId (world s) = (Ok info, w) ->
    let s1 := {| world := w; yt := Some c; log := log s ++ [CallGetBasicInfo c videoId] |} in
    (innertube_select info = None <->
     Innertube.streaming_data info = None \/
     exists sd, Innertube.streaming_data info = Some sd /\
       (Innertube.adaptive_formats sd = None \/
        exists fs, Innertube.adaptive_formats sd = Some fs /\
                   forall f, In f fs -> ~ HasAudio (Innertube.mime_type f))) /\
    (innertube_select info = None ->
     innertube_audio_url videoId s = (Json 500 (ErrorBody "No audio format found"), s1) /\
     innertube_stream videoId s =
       (Send 500 "Stream error: No audio format available", s1)).
Proof.
  intros H videoId s c info w Hlen Hy Hinfo s1. split.
  - unfold innertube_select.
    destruct (Innertube.streaming_data info) as [sd|]; cbn [opt_chain].
    + destruct (Innertube.adaptive_formats sd) as [fs|] eqn:Hfs; cbn [opt_chain].
      * destruct (pick_audio_selects (@Innertube.mime_type _) (@Innertube.bitrate _) fs)
          as (Hnone & _). rewrite Hnone. split.
        -- intros Hn. right. exists sd. split; trivial. right. now exists fs.
        -- intros [Hd|(sd' & [= <-] & [Hd|(fs' & Hfs' & Hn)])];
             [discriminate|congruence|].
           rewrite Hfs in Hfs'. now injection Hfs' as <-.
      * split; [|reflexivity]. intros _. right. exists sd. split; trivial. now left.
    + split; [now left|reflexivity].
  - intros Hsel.
    rewrite (audio_url_resolved videoId s Hlen Hy Hinfo),
            (stream_resolved videoId s Hlen Hy Hinfo), Hsel.
    now split.
Qed.

Lemma missing_metadata_is_no_audio_format_witness :
  innertube_audio_url "dQw4w9WgXcQ" (Demo.state "mp3" [Demo.video_only] [] [] (Some 7) [])
  = (Json 500 (ErrorBody "No audio format found"),
     Demo.state "mp3" [Demo.video_only] [] [] (Some 7)
       [@CallGetBasicInfo (Demo.host "mp3" [Demo.video_only]) 7 "dQw4w9WgXcQ"]).
Proof.
  apply (@missing_metadata_is_no_audio_format (Demo.host "mp3" [Demo.video_only])
           "dQw4w9WgXcQ"
           (Demo.state "mp3" [Demo.video_only] [] [] (Some 7) []) 7
           {| Innertube.streaming_data :=
                Some {| Innertube.adaptive_formats := Some [Demo.video_only] |} |}
           {| Demo.disk := []; Demo.supply := [] |} eq_refl eq_refl eq_refl).
  reflexivity.
Defined.

(** ** Counting downloads *)

Section DownloadCount.
Variable H : Host.

Lemma download_threw (videoId : string) (s : State H) (e : string) (w1 : World H) :
  String.length videoId = 11 ->
  existsSync H (canonical H videoId) (world s) = false ->
  ytdlp H (watch_url videoId)
    (download_options (JS.replace (canonical H videoId) ".mp3" ".%(ext)s"))
    (world s) = (Threw e, w1) ->
  ytdlp_download videoId s =
    (Send 500 "Download error",
     {| world := w1; yt := yt s;
        log := (log s ++ [CallExistsSync (canonical H videoId)]) ++
               [CallYtdlp (watch_url videoId)
                  (download_options
                     (JS.replace (canonical H videoId) ".mp3" ".%(ext)s"))] |}).
Proof.
  intros Hlen Hmiss Hdl. unfold canonical in *.
  unfold ytdlp_download. rewrite (invalid_id_false _ Hlen).
  unfold try_catch, bind, query, call, ret, record. cbn [world yt log].
  rewrite Hmiss. cbn [world yt log]. now rewrite Hdl.
Qed.

Lemma download_list_threw (videoId : string) (s : State H) (r e : string)
    (w1 : World H) :
  String.length videoId = 11 ->
  existsSync H (canonical H videoId) (world s) = false ->
  ytdlp H (watch_url videoId)
    (download_options (JS.replace (canonical H videoId) ".mp3" ".%(ext)s"))
    (world s) = (Ok r, w1) ->
  readdirSync H (DOWNLOADS_DIR H) w1 = Threw e ->
  ytdlp_download videoId s =
    (Send 500 "Download error",
     {| world := w1; yt := yt s;
        log := (log s ++ [CallExistsSync (canonical H videoId)]) ++
               [CallYtdlp (watch_url videoId)
                  (download_options
                     (JS.replace (canonical H videoId) ".mp3" ".%(ext)s"));
                CallReaddirSync (DOWNLOADS_DIR H)] |}).
Proof.
  intros Hlen Hmiss Hdl Hls. unfold canonical in *.
  unfold ytdlp_download. rewrite (invalid_id_false _ Hlen).
  unfold try_catch, bind, query, call, ret, record. cbn [world yt log].
  rewrite Hmiss. cbn [world yt log]. rewrite Hdl. cbn [world yt log]. rewrite Hls.
  now rewrite <- !app_assoc.
Qed.

Lemma downloads_snoc_other (l : list (Call H)) (c : Call H) :
  disk_call c = true -> downloads (l ++ [c]) = downloads l.
Proof.
  intros Hc. rewrite downloads_app. destruct c; try discriminate; cbn; lia.
Qed.

(** One request: one download call on a miss, none otherwise. *)
Lemma download_count (videoId : string) (s : State H) :
  downloads (log (snd (ytdlp_download videoId s))) =
  downloads (log s) +
  (if invalid_id videoId || existsSync H (canonical H videoId) (world s) then 0 else 1).
Proof.
  destruct (invalid_id videoId) eqn:Hv.
  - unfold ytdlp_download. rewrite Hv. cbn. lia.
  - assert (Hlen : String.length videoId = 11).
    { rewrite invalid_id_length, negb_false_iff in Hv. now apply Nat.eqb_eq. }
    cbn [orb].
    destruct (existsSync H (canonical H videoId) (world s)) eqn:Hhit.
    + rewrite (download_hit _ _ Hlen Hhit). unfold record. cbn [snd log].
      rewrite downloads_snoc_other by reflexivity. lia.
    + destruct (ytdlp H (watch_url videoId)
                  (download_options (JS.replace (canonical H videoId) ".mp3" ".%(ext)s"))
                  (world s)) as [[r|e] w1] eqn:Hdl.
      * destruct (readdirSync H (DOWNLOADS_DIR H) w1) as [files|e] eqn:Hls.
        -- rewrite (download_miss videoId s Hlen Hhit Hdl Hls).
           assert (Hbase : forall l : list (Call H),
                     downloads ((l ++ [CallExistsSync (canonical H videoId)]) ++
                       [CallYtdlp (watch_url videoId)
                          (download_options
                             (JS.replace (canonical H videoId) ".mp3" ".%(ext)s"));
                        CallReaddirSync (DOWNLOADS_DIR H)]) = downloads l + 1).
           { intros l. rewrite !downloads_app. cbn. lia. }
           destruct (List.find _ files) as [f|]; cbv zeta.
           ++ destruct (_ =? _); [cbn [snd log]; apply Hbase|].
              destruct (existsSync H _ w1).
              ** destruct (renameSync H _ _ w1) as [[[]|e] w2]; cbn [snd log];
                   rewrite downloads_app, Hbase; cbn; lia.
              ** cbn [snd log]. rewrite downloads_app, Hbase. cbn. lia.
           ++ cbn [snd log]. apply Hbase.
        -- rewrite (download_list_threw videoId s Hlen Hhit Hdl Hls). cbn [snd log].
           rewrite !downloads_app. cbn. lia.
      * rewrite (download_threw videoId s Hlen Hhit Hdl). cbn [snd log].
        rewrite !downloads_app. cbn. lia.
Qed.

End DownloadCount.

(** X16. One request to the download handler of the yt-dlp variant calls
    yt-dlp exactly once when the id is valid and its canonical file does not
    exist, and not at all otherwise, whatever yt-dlp and the filesystem
    answer afterwards. *)
Theorem one_download_per_miss :
  forall (H : Host) (videoId : string) (s : State H),
    downloads (log (snd (ytdlp_download videoId s))) =
    downloads (log s) +
    (if invalid_id videoId || existsSync H (canonical H videoId) (world s)
     then 0 else 1).
Proof. intros. apply download_count. Qed.

(** X17. Once the canonical file of a valid id exists after a request, the
    [n] requests that follow, served one after the other, are all answered
    with that file, leave the world as it is and call yt-dlp no more: the
    whole sequence has cost at most one download. *)
Theorem first_download_then_cache :
  forall (H : Host) (videoId : string) (s : State H) (n : nat),
    String.length videoId = 11 ->
    let s1 := snd (ytdlp_download videoId s) in
    existsSync H (canonical H videoId) (world s1) = true ->
    fst (serve (ytdlp_download videoId) n s1) = repeat (SendFile (canonical H videoId)) n /\
    world (snd (serve (ytdlp_download videoId) n s1)) = world s1 /\
    downloads (log (snd (serve (ytdlp_download videoId) n s1))) <= downloads (log s) + 1.
Proof.
  intros H videoId s n Hlen s1 Hhit.
  rewrite (serve_hits _ n _ Hlen Hhit). cbn [fst snd world log].
  repeat split. rewrite downloads_app, downloads_exists. subst s1.
  rewrite download_count. destruct (_ || _); lia.
Qed.

Lemma first_download_then_cache_witness :
  fst (serve (ytdlp_download "dQw4w9WgXcQ") 4
         (snd (ytdlp_download "dQw4w9WgXcQ" (Demo.fresh [] [] "m4a" []))))
  = repeat (SendFile "/srv/app/downloads/dQw4w9WgXcQ.mp3") 4.
Proof.
  apply (@first_download_then_cache (Demo.host "m4a" []) "dQw4w9WgXcQ"
           (Demo.fresh [] [] "m4a" []) 4 eq_refl eq_refl).
Defined.

(** ** Search *)

(** X18. The search handler makes one call to the provider, with the query
    (the empty string when [q] is missing) and a limit of 20, and touches
    nothing else.  When the provider fails, the answer is 500 with its
    message.  Otherwise the answer is 200 with one object per item of type
    "video", in the provider's order and with the item's id; items of any
    other type are dropped. *)
Theorem search_answers_the_videos_in_order :
  forall (H : Host) (q : option string) (s : State H),
    search None s = search (Some "") s /\
    match ytsr H (JS.or_else q "") 20 (world s) with
    | (Ok items, w) =>
        search q s =
          (Json 200 (ItemsBody (videos items)),
           {| world := w; yt := yt s; log := log s ++ [CallYtsr (JS.or_else q "") 20] |}) /\
        map SearchResult.id (videos items) =
          map Ytsr.id (filter (fun i => Ytsr.type i =? "video") items) /\
        length (videos items) <= length items /\
        (forall (l1 l2 : list Ytsr.Item), videos (l1 ++ l2) = (videos l1 ++ videos l2)%list)
    | (Threw e, w) =>
        search q s =
          (Json 500 (ErrorBody e),
           {| world := w; yt := yt s; log := log s ++ [CallYtsr (JS.or_else q "") 20] |})
    end.
Proof.
  intros H q s. split; [reflexivity|].
  unfold search, try_catch, bind, call.
  destruct (ytsr H (JS.or_else q "") 20 (world s)) as [[items|e] w]; cbn; [|reflexivity].
  repeat split.
  - unfold videos. rewrite map_map. reflexivity.
  - unfold videos. rewrite length_map. apply filter_length_le.
  - intros l1 l2. unfold videos. now rewrite filter_app, map_app.
Qed.

(** ** The output template given to yt-dlp *)

Lemma substring_zero (s : string) (m : nat) : String.substring m 0 s = "".
Proof. revert m. induction s as [|c s IH]; intros [|m]; cbn; auto. Qed.

(** [s.replace(pat, rep)] rewrites the first occurrence of [pat], the one
    [String.index] finds, and nothing when there is none. *)
Lemma replace_first (s pat rep : string) :
  JS.replace s pat rep =
  match String.index 0 pat s with
  | Some n =>
      String.substring 0 n s ++ rep ++
      String.substring (n + String.length pat)
                       (String.length s - (n + String.length pat)) s
  | None => s
  end.
Proof.
  induction s as [|c s IH].
  - destruct pat; reflexivity.
  - cbn [JS.replace String.index].
    destruct (String.prefix pat (String c s)) eqn:Hp.
    + rewrite substring_zero. reflexivity.
    + rewrite IH. destruct (String.index 0 pat s) as [n|]; reflexivity.
Qed.

(** X19. The output template of every yt-dlp call of the download handler is
    the canonical path in which the first occurrence of ".mp3", wherever it
    stands, is replaced by ".%(ext)s"; it is the canonical path itself when
    there is no such occurrence. *)
Theorem output_template_replaces_first_mp3 :
  forall (H : Host) (videoId : string) (s : State H),
    let out := canonical H videoId in
    let template :=
      match String.index 0 ".mp3" out with
      | Some n => String.substring 0 n out ++ ".%(ext)s" ++
                  String.substring (n + 4) (String.length out - (n + 4)) out
      | None => out
      end in
    exists rest,
      log (snd (ytdlp_download videoId s)) = (log s ++ rest)%list /\
      forall u o, In (CallYtdlp u o) rest -> output o = Some template.
Proof.
  intros H videoId s out template.
  destruct (@ytdlp_download_handles H videoId s) as (rest & Hl & Hq & _).
  exists rest. split; [exact Hl|]. rewrite Forall_forall in Hq.
  intros u o Hin.
  destruct (Hq _ Hin) as [Hc|[(p & _ & _ & Hc)|[Hc|[Hc|(p & _ & _ & Hc)]]]];
    try discriminate.
  injection Hc as -> ->. cbn [output download_options].
  fold out. now rewrite replace_first.
Qed.

(** An id that contains ".mp3": the extension of yt-dlp lands inside the
    file name and the final ".mp3" stays. *)
Example output_template_demo :
  exists rest,
    log (snd (ytdlp_download "a.mp3bcdefg" (Demo.fresh [] [] "m4a" []))) =
      CallExistsSync "/srv/app/downloads/a.mp3bcdefg.mp3"
      :: CallYtdlp "https://www.youtube.com/watch?v=a.mp3bcdefg"
           (download_options "/srv/app/downloads/a.%(ext)sbcdefg.mp3")
      :: rest.
Proof. eexists. reflexivity. Qed.

(** ** The URL printed by yt-dlp *)









(** ** Startup of the Innertube variant, piping in the play-dl variant *)


(** Were [app] and [PORT] bound, the statement would start the server on
    that port either way, after the calls of [initYT], and print the banner
    that announces a later initialisation exactly when [initYT] is
    rejected. *)
Lemma boot_listens_when_bound (H : Host) (s : State H) (port : string) :
  fst (boot {| app_bound := true; PORT := Some port |} s) =
    Ok (Listening port
          ("External Proxy Server running on port " ++ port ++
           match fst (initYT s) with
           | Ok _ => ""
           | Threw _ => " (Innertube will init on first request)"
           end)).
Proof. unfold boot. now destruct (initYT s) as [[c|e] s']. Qed.


Lemma header_value_ok_app (a b : string) :
  header_value_ok (a ++ b) = header_value_ok a && header_value_ok b.
Proof.
  induction a as [|c a IH]; [reflexivity|]. cbn. now rewrite IH, andb_assoc.
Qed.

(** The header built from an id is accepted exactly when the id is. *)
Lemma attachment_ok (videoId : string) :
  header_value_ok (attachment videoId) = header_value_ok videoId.
Proof.
  unfold attachment. rewrite !header_value_ok_app.
  change (header_value_ok "attachment; filename=") with true.
  change (header_value_ok dquote) with true.
  change (header_value_ok ".mp3") with true.
  cbn [andb]. now rewrite !andb_true_r.
Qed.

(** X22. play-dl variant.  /api/download makes the same single call as
    /api/stream, [play.stream] with quality 2, and ends in the same state.
    When every character of the id is one Node accepts in a header value,
    both pipe the same stream, with "Accept-Ranges: bytes" for the one and
    an attachment named after the id for the other.  When the id has 11
    characters and one of them is refused (a line feed, say), setting the
    Content-Disposition header throws after [play.stream] has resolved, and
    /api/download answers 500 "Download error" whatever /api/stream
    answers. *)
Theorem playdl_download_pipes_same_stream :
  forall (H : Host) (videoId : string) (s : State H),
    snd (playdl_download videoId s) = snd (playdl_stream videoId s) /\
    (header_value_ok videoId = true ->
     forall st : Stream H,
       fst (playdl_stream videoId s) =
         Pipe [("Content-Type", "audio/mpeg"); ("Accept-Ranges", "bytes")] st <->
       fst (playdl_download videoId s) =
         Pipe [("Content-Type", "audio/mpeg");
               ("Content-Disposition",
                "attachment; filename=" ++ dquote ++ videoId ++ ".mp3" ++ dquote)] st) /\
    (header_value_ok videoId = false -> String.length videoId = 11 ->
     fst (playdl_download videoId s) = Send 500 "Download error") /\
    (String.length videoId = 11 ->
     log (snd (playdl_stream videoId s)) =
       (log s ++ [CallPlayStream (watch_url videoId) 2])%list) /\
    (forall hs st, fst (playdl_download videoId s) = Pipe hs st ->
       header_value_ok videoId = true /\
       exists w, play_stream H (watch_url videoId) 2 (world s) = (Ok st, w)).
Proof.
  intros H videoId s. unfold playdl_download, playdl_stream.
  destruct (invalid_id videoId) eqn:Hv.
  - cbn. repeat split; try discriminate.
    + intros _ Hlen. rewrite (invalid_id_false _ Hlen) in Hv. discriminate.
    + intros Hlen. rewrite (invalid_id_false _ Hlen) in Hv. discriminate.
  - unfold try_catch, bind, call, setHeader. cbv zeta.
    change (header_value_ok "audio/mpeg") with true. cbv iota.
    rewrite attachment_ok. unfold attachment.
    destruct (play_stream H (watch_url videoId) 2 (world s)) as [[st0|e] w];
      destruct (header_value_ok videoId); cbn [ret throw fst snd log];
      (split; [reflexivity|]); (split; [|split; [|split]]);
      try discriminate; try reflexivity; try (intros; reflexivity);
      try (intros _ st; split; discriminate).
    + intros _ st. split; intros [= <-]; reflexivity.
    + intros hs st [= _ <-]. split; [reflexivity|now exists w].
Qed.

Lemma playdl_download_pipes_same_stream_witness :
  let videoId := "dQw4w9WgXc" ++ String (ascii_of_nat 10) "" in
  fst (playdl_download videoId (Demo.fresh [] [] "mp3" [])) = Send 500 "Download error" /\
  fst (playdl_stream videoId (Demo.fresh [] [] "mp3" [])) =
    Pipe [("Content-Type", "audio/mpeg"); ("Accept-Ranges", "bytes")]
         ("https://www.youtube.com/watch?v=" ++ videoId) /\
  fst (playdl_download "dQw4w9WgXcQ" (Demo.fresh [] [] "mp3" [])) =
    Pipe [("Content-Type", "audio/mpeg");
          ("Content-Disposition",
           "attachment; filename=" ++ dquote ++ "dQw4w9WgXcQ.mp3" ++ dquote)]
         "https://www.youtube.com/watch?v=dQw4w9WgXcQ".
Proof.
  split; [|split].
  - exact (proj1 (proj2 (proj2
      (@playdl_download_pipes_same_stream (Demo.host "mp3" [])
         ("dQw4w9WgXc" ++ String (ascii_of_nat 10) "") (Demo.fresh [] [] "mp3" []))))
      eq_refl eq_refl).
  - reflexivity.
  - apply (proj1 (proj2
      (@playdl_download_pipes_same_stream (Demo.host "mp3" [])
         "dQw4w9WgXcQ" (Demo.fresh [] [] "mp3" []))) eq_refl).
    reflexivity.
Defined.
